(** * Detective Quest: the clue store, the suspect index and the exploration loop

    A shallow embedding of the three C programs of the repository, the
    first level ("novato", module [Novato]), the second ("aventureiro",
    module [Aventureiro]) and the last ("mestre", the top level of this
    file), and the properties of their data structures:

    - the binary search tree of collected clues ([inserirPista],
      [exibirPistas]);
    - the hash table from clue to suspect ([hash], [inserirNaHash],
      [encontrarSuspeito]);
    - the interactive exploration loops ([explorarMansao],
      [Novato.explorarSalas], [Aventureiro.explorarSalasComPistas]);
    - the final accusation ([contarPistasPorSuspeitoNaBST],
      [verificarSuspeitoFinal]) and the program as a whole ([main]).

    Conventions of the embedding.

    - A [const char*] argument is the content of the buffer it points to,
      a [string]; the C string it denotes ends at the first NUL byte or at
      the end of the buffer, whichever comes first ([cstr]).  A pointer that
      may be [NULL] is an [option string].
    - [unsigned int] is 32 bits wide and wraps around ([UINT_MOD]).  The one
      [int] that is computed, the counter of [contadorRec], is at most the
      number of nodes of the store and is a plain integer.
    - [malloc] succeeds (the programs leave through [exit] otherwise).
    - The console is the list of input characters still to be read and the
      list of output events.  A menu read that finds the input exhausted
      ends the turn of the [_corpo] functions in [SemEntrada]; the
      [_completo] loops carry the variable [opcao] and go on from there as
      the code does at end of file, with the option read last. *)

From Stdlib Require Import ZArith List String Ascii Lia Sorted Permutation.
From stdpp Require Import base list sorting strings pretty.

Open Scope Z_scope.
Set Warnings "-register-all".

(** ** Constants of the "mestre" program *)

Definition TAM_HASH : Z := 11.
Definition MAX_NOME : nat := 64.
Definition MAX_PISTA : nat := 128.

(** Width of [unsigned int]. *)
Definition UINT_MOD : Z := 2 ^ 32.

(** ** C strings *)

Definition NUL : ascii := "000"%char.
Definition LF : ascii := "010"%char.

(** [(unsigned char) c] *)
Definition uchar (c : ascii) : Z := Z.of_N (N_of_ascii c).

(** The C string held in a buffer: its bytes before the first NUL. *)
Fixpoint cstr (buf : string) : string :=
  match buf with
  | EmptyString => EmptyString
  | String c r => if uchar c =? 0 then EmptyString else String c (cstr r)
  end.

(** [s[0] == '\0'] *)
Definition vazia (s : string) : bool :=
  match s with
  | EmptyString => true
  | String c _ => uchar c =? 0
  end.

(** [strcmp(a, b)]: bytes are compared as [unsigned char], the terminator
    counts as 0 and ends the comparison. *)
Fixpoint strcmp (a b : string) : Z :=
  match a, b with
  | EmptyString, EmptyString => 0
  | EmptyString, String y _ => 0 - uchar y
  | String x _, EmptyString => uchar x - 0
  | String x a', String y b' =>
      if uchar x =? uchar y
      then (if uchar x =? 0 then 0 else strcmp a' b')
      else uchar x - uchar y
  end.

(** [strncpy(dst, src, n); dst[n] = '\0';]: the C string left in [dst]. *)
Fixpoint strncpy (n : nat) (src : string) : string :=
  match n, src with
  | O, _ => EmptyString
  | S _, EmptyString => EmptyString
  | S n', String c r =>
      if uchar c =? 0 then EmptyString else String c (strncpy n' r)
  end.

(** A C string that fits a [char[n + 1]] array. *)
Definition cabe (n : nat) (s : string) : Prop :=
  cstr s = s /\ (String.length s <= n)%nat.

(** The sum of the byte values of a text. *)
Fixpoint soma_bytes (s : string) : Z :=
  match s with
  | EmptyString => 0
  | String c r => uchar c + soma_bytes r
  end.

(** [n] copies of one character. *)
Fixpoint repetir (n : nat) (c : ascii) : string :=
  match n with
  | O => EmptyString
  | S n' => String c (repetir n' c)
  end.

(** ** The clue store: a binary search tree of texts *)

Inductive PistaNode : Type :=
| PNULL
| PNo (pista : string) (esquerda direita : PistaNode).

Fixpoint inserirPista (raiz : PistaNode) (pista : option string) : PistaNode :=
  match pista with
  | None => raiz
  | Some p =>
      if vazia p then raiz
      else
        match raiz with
        | PNULL => PNo (strncpy (MAX_PISTA - 1) p) PNULL PNULL
        | PNo k e d =>
            let cmp := strcmp p k in
            if cmp <? 0 then PNo k (inserirPista e pista) d
            else if cmp >? 0 then PNo k e (inserirPista d pista)
            else raiz
        end
  end.

(** The line [printf("- %s\n", ...)] writes. *)
Definition linha_pista (p : string) : string :=
  "- " +:+ cstr p +:+ String LF "".

(** [exibirPistas]: the lines written, in order. *)
Fixpoint exibirPistas (raiz : PistaNode) : list string :=
  match raiz with
  | PNULL => []
  | PNo k e d => exibirPistas e ++ linha_pista k :: exibirPistas d
  end.

(** The texts of the store in the order [exibirPistas] visits them. *)
Fixpoint em_ordem (raiz : PistaNode) : list string :=
  match raiz with
  | PNULL => []
  | PNo k e d => em_ordem e ++ k :: em_ordem d
  end.

(** The store after a sequence of insertions, starting from [raiz]. *)
Definition inserirTodas (raiz : PistaNode) (ps : list string) : PistaNode :=
  fold_left (fun r p => inserirPista r (Some p)) ps raiz.

(** The order of [strcmp] on texts. *)
Definition abaixo (a b : string) : Prop := strcmp a b < 0.
Definition ate (a b : string) : Prop := strcmp a b <= 0.

(** Search-tree invariant: the texts to the left of a key are below it, and
    each text [x] to its right satisfies [Rd k x]. *)
Fixpoint abr (Rd : string -> string -> Prop) (t : PistaNode) : Prop :=
  match t with
  | PNULL => True
  | PNo k e d =>
      Forall (fun x => abaixo x k) (em_ordem e) /\
      Forall (Rd k) (em_ordem d) /\
      abr Rd e /\ abr Rd d
  end.

(** The new text may go to the right of every key it is above. *)
Definition entra_a_direita (Rd : string -> string -> Prop) (p : string) : Prop :=
  forall k, cabe (MAX_PISTA - 1) k -> strcmp p k > 0 ->
            Rd k (strncpy (MAX_PISTA - 1) p).

(** Every stored text is a C string that fits [char pista[MAX_PISTA]]. *)
Definition chaves_ok (t : PistaNode) : Prop :=
  Forall (cabe (MAX_PISTA - 1)) (em_ordem t).

(** The stores the program builds. *)
Definition armazem_ok (t : PistaNode) : Prop := abr ate t /\ chaves_ok t.

(** A text of 128 bytes, one more than a node of the store holds. *)
Definition texto_longo : string := repetir MAX_PISTA "a"%char.

(** The clues of the rooms of the mansion, in the order [main] creates them. *)
Definition pistas_da_mansao : list string :=
  [ "Pegadas de lama recentes";
    "Página arrancada de um diário";
    "Copo quebrado com marca de batom";
    "Envelope selado com cera vermelha";
    "Chave antiga caída entre as flores";
    "Retrato rasgado de uma mulher desconhecida" ].

(** ** The suspect index: a hash table with chaining *)

Record SuspeitoNode : Type := MkSuspeito {
  sn_pista : string;
  sn_suspeito : string
}.

(** A bucket is the chain of its nodes from the head ([prox] links); the
    table is the array of [TAM_HASH] buckets. *)
Abbreviation Tabela := (list (list SuspeitoNode)).

Definition inicializarHash : Tabela := replicate (Z.to_nat TAM_HASH) [].

Fixpoint hash_laco (soma : Z) (p : string) : Z :=
  match p with
  | EmptyString => soma
  | String c r =>
      if uchar c =? 0 then soma
      else hash_laco ((soma + uchar c) mod UINT_MOD) r
  end.

Definition hash (pista : string) : Z := hash_laco 0 pista mod TAM_HASH.

Definition inserirNaHash (tabela : Tabela) (pista suspeito : option string)
  : Tabela :=
  match pista, suspeito with
  | Some p, Some s =>
      let idx := Z.to_nat (hash p) in
      let novo := MkSuspeito (strncpy (MAX_PISTA - 1) p)
                             (strncpy (MAX_NOME - 1) s) in
      <[idx := novo :: tabela !!! idx]> tabela
  | _, _ => tabela
  end.

Definition Desconhecido : string := "Desconhecido".

Fixpoint procurar (cur : list SuspeitoNode) (pista : string) : string :=
  match cur with
  | [] => Desconhecido
  | n :: prox =>
      if strcmp (sn_pista n) pista =? 0 then sn_suspeito n
      else procurar prox pista
  end.

Definition encontrarSuspeito (tabela : Tabela) (pista : option string)
  : string :=
  match pista with
  | None => Desconhecido
  | Some p => procurar (tabela !!! Z.to_nat (hash p)) p
  end.

(** The table after a sequence of insertions. *)
Definition inserirAssociacoes (tabela : Tabela) (l : list (string * string))
  : Tabela :=
  fold_left (fun t a => inserirNaHash t (Some (fst a)) (Some (snd a))) l tabela.

(** Every field of every node is a C string that fits its array, and the
    table has its [TAM_HASH] buckets. *)
Definition no_ok (n : SuspeitoNode) : Prop :=
  cabe (MAX_PISTA - 1) (sn_pista n) /\ cabe (MAX_NOME - 1) (sn_suspeito n).

Definition tabela_ok (t : Tabela) : Prop :=
  length t = Z.to_nat TAM_HASH /\ Forall (Forall no_ok) t.

(** No node of the table has the text of [p] as its key. *)
Definition ausente (t : Tabela) (p : string) : Prop :=
  Forall (Forall (fun n => cstr (sn_pista n) <> cstr p)) t.

(** The associations [main] inserts, in its order. *)
Definition associacoes_da_mansao : list (string * string) :=
  [ ("Pegadas de lama recentes", "Jardineiro");
    ("Página arrancada de um diário", "Governanta");
    ("Copo quebrado com marca de batom", "Madame Sinclair");
    ("Envelope selado com cera vermelha", "Governanta");
    ("Chave antiga caída entre as flores", "Jardineiro");
    ("Retrato rasgado de uma mulher desconhecida", "Madame Sinclair") ].

Definition tabela_da_mansao : Tabela :=
  inserirAssociacoes inicializarHash associacoes_da_mansao.

(** A text of 16843010 bytes 0xFF: their sum is above [UINT_MOD]. *)
Definition texto_enorme : string :=
  repetir (N.to_nat 16843010) "255"%char.

(** ** The console *)

Inductive evento : Type :=
| Limpar                (* limparTela() *)
| Txt (s : string).     (* one printf *)

Definition nl : string := String LF "".
Definition aspas : string := String "034"%char "".

(** [isspace] in the "C" locale. *)
Definition isspace (c : ascii) : bool :=
  (uchar c =? 32) || ((9 <=? uchar c) && (uchar c <=? 13)).

(** [scanf(" %c", &opcao)]: skips white space and reads one character.
    [None] when the input is exhausted first. *)
Fixpoint scanf_c (entrada : list ascii) : option (ascii * list ascii) :=
  match entrada with
  | [] => None
  | c :: r => if isspace c then scanf_c r else Some (c, r)
  end.

(** [limparBufferEntrada]: discards the input up to and including the next
    newline. *)
Fixpoint limparBufferEntrada (entrada : list ascii) : list ascii :=
  match entrada with
  | [] => []
  | c :: r => if uchar c =? uchar LF then r else limparBufferEntrada r
  end.

(** [fgets(buf, tam, stdin)]: at most [tam - 1] characters, up to and
    including a newline; [None] (NULL) at end of input. *)
Fixpoint fgets_laco (n : nat) (entrada : list ascii) : string * list ascii :=
  match n, entrada with
  | O, _ => (EmptyString, entrada)
  | S _, [] => (EmptyString, [])
  | S n', c :: r =>
      if uchar c =? uchar LF then (String c EmptyString, r)
      else let '(s, r') := fgets_laco n' r in (String c s, r')
  end.

Definition fgets (tam : nat) (entrada : list ascii)
  : option (string * list ascii) :=
  match entrada with
  | [] => None
  | _ :: _ => Some (fgets_laco (tam - 1) entrada)
  end.

(** [strchr(rej, c) != NULL] for [c] not NUL. *)
Fixpoint contem (rej : string) (c : ascii) : bool :=
  match rej with
  | EmptyString => false
  | String x r => if uchar x =? 0 then false
                  else (uchar x =? uchar c) || contem r c
  end.

(** [strcspn(s, rej)] *)
Fixpoint strcspn (s rej : string) : nat :=
  match s with
  | EmptyString => O
  | String c r =>
      if (uchar c =? 0) || contem rej c then O else S (strcspn r rej)
  end.

(** [s[i] = '\0'], for [i] up to the length of the buffer content. *)
Fixpoint por_NUL (s : string) (i : nat) : string :=
  match s, i with
  | EmptyString, _ => EmptyString
  | String _ r, O => String NUL r
  | String c r, S i' => String c (por_NUL r i')
  end.

(** ** The accusation *)

Fixpoint contadorRec (tabela : Tabela) (suspeito : string) (node : PistaNode)
  : Z :=
  match node with
  | PNULL => 0
  | PNo k e d =>
      let c := 0 in
      let c := c + contadorRec tabela suspeito e in
      let s := encontrarSuspeito tabela (Some k) in
      let c := if strcmp s suspeito =? 0 then c + 1 else c in
      let c := c + contadorRec tabela suspeito d in
      c
  end.

Definition contarPistasPorSuspeitoNaBST (tabela : Tabela)
    (raizPistas : PistaNode) (suspeito : string) : Z :=
  match raizPistas with
  | PNULL => 0
  | PNo _ _ _ => contadorRec tabela suspeito raizPistas
  end.

Inductive Veredito : Type :=
| Confirmada        (* "Acusação confirmada!" *)
| Fragil            (* "Acusação frágil" *)
| SemFundamento.    (* "Acusação sem fundamento" *)

(** The branch [verificarSuspeitoFinal] takes on the count. *)
Definition classificar (total : Z) : Veredito :=
  if total >=? 2 then Confirmada
  else if total >? 0 then Fragil
  else SemFundamento.

Definition msg_veredito (v : Veredito) (nome : string) (total : Z)
  : list evento :=
  match v with
  | Confirmada =>
      [Txt (nl +:+ "✅ Acusação confirmada! '" +:+ cstr nome
            +:+ "' é considerado culpado (evidências: " +:+ pretty total
            +:+ " pistas)." +:+ nl)]
  | Fragil =>
      [Txt (nl +:+ "⚠️ Acusação frágil: '" +:+ cstr nome +:+ "' tem somente "
            +:+ pretty total +:+ " pista(s) coletada(s) relacionada(s)." +:+ nl);
       Txt ("São necessárias ao menos 2 pistas para confirmação." +:+ nl)]
  | SemFundamento =>
      [Txt (nl +:+ "❌ Acusação sem fundamento: nenhuma pista coletada aponta para '"
            +:+ cstr nome +:+ "'." +:+ nl)]
  end.

Definition msg_entrada_invalida : evento := Txt ("Entrada inválida." +:+ nl).
Definition msg_abortada : evento :=
  Txt ("Nenhum nome informado. Acusação abortada." +:+ nl).

Definition cabecalho_acusacao : list evento :=
  [ Txt (nl +:+ "========================================================" +:+ nl);
    Txt ("                      FASE FINAL - ACUSAÇÃO" +:+ nl);
    Txt ("========================================================" +:+ nl +:+ nl);
    Txt ("Suspeitos conhecidos: Jardineiro, Governanta, Madame Sinclair" +:+ nl);
    Txt "Digite o nome do suspeito a ser acusado: " ].

Definition linha_associacao (n : SuspeitoNode) : evento :=
  Txt (" - " +:+ aspas +:+ cstr (sn_pista n) +:+ aspas +:+ " -> "
       +:+ cstr (sn_suspeito n) +:+ nl).

Definition resumo (tabela : Tabela) (raizPistas : PistaNode) : list evento :=
  [Txt (nl +:+ "Resumo das pistas coletadas e seus suspeitos (baseado em tabela):" +:+ nl)]
  ++ map Txt (exibirPistas raizPistas)
  ++ [Txt (nl +:+ "Associações (pista -> suspeito):" +:+ nl)]
  ++ flat_map (fun i => map linha_associacao (tabela !!! i))
              (seq 0 (Z.to_nat TAM_HASH)).

(** What [verificarSuspeitoFinal] leaves: the two structures it was given,
    the console, and the verdict it announced, if any. *)
Record Julgamento : Type := MkJulgamento {
  jg_tabela : Tabela;
  jg_pistas : PistaNode;
  jg_entrada : list ascii;
  jg_saida : list evento;
  jg_veredito : option Veredito
}.

Definition verificarSuspeitoFinal (tabela : Tabela) (raizPistas : PistaNode)
    (entrada : list ascii) : Julgamento :=
  match fgets MAX_NOME entrada with
  | None =>
      MkJulgamento tabela raizPistas entrada
        (cabecalho_acusacao ++ [msg_entrada_invalida]) None
  | Some (buf, resto) =>
      let nome := por_NUL buf (strcspn buf nl) in
      if vazia nome then
        MkJulgamento tabela raizPistas resto
          (cabecalho_acusacao ++ [msg_abortada]) None
      else
        let total := contarPistasPorSuspeitoNaBST tabela raizPistas nome in
        MkJulgamento tabela raizPistas resto
          (cabecalho_acusacao ++ msg_veredito (classificar total) nome total
           ++ resumo tabela raizPistas)
          (Some (classificar total))
  end.

(** The name under accusation: the first line of the input, without its
    newline, as [verificarSuspeitoFinal] reads it. *)
Definition nome_acusado (entrada : list ascii) : option string :=
  match fgets MAX_NOME entrada with
  | None => None
  | Some (buf, _) => Some (cstr (por_NUL buf (strcspn buf nl)))
  end.

(** The clues of a list that the table links to a suspect. *)
Definition pistas_contra (tabela : Tabela) (suspeito : string)
    (l : list string) : list string :=
  filter (fun c => encontrarSuspeito tabela (Some c) = suspeito) l.

(** ** The mansion and its exploration ("mestre") *)

Inductive Sala : Type := MkSala {
  sala_nome : string;
  sala_pista : string;
  sala_esquerda : option Sala;
  sala_direita : option Sala
}.

Definition criarSala (nome : string) (pista : option string) : Sala :=
  MkSala (strncpy (MAX_NOME - 1) nome)
         (match pista with
          | Some p => if vazia p then EmptyString
                      else strncpy (MAX_PISTA - 1) p
          | None => EmptyString
          end)
         None None.

(** [s->esquerda = e; s->direita = d;] *)
Definition ligar (s : Sala) (e d : option Sala) : Sala :=
  MkSala (sala_nome s) (sala_pista s) e d.

(** The rooms [main] builds.  The tree is immutable, so the rooms are
    linked from the leaves up; the result is the structure the pointer
    assignments of [main] produce. *)
Definition estudo : Sala :=
  criarSala "Sala de Estudo" (Some "Envelope selado com cera vermelha").
Definition jardim : Sala :=
  criarSala "Jardim" (Some "Chave antiga caída entre as flores").
Definition sotao : Sala :=
  criarSala "Sótão" (Some "Retrato rasgado de uma mulher desconhecida").
Definition biblioteca : Sala :=
  ligar (criarSala "Biblioteca" (Some "Página arrancada de um diário"))
        (Some estudo) (Some jardim).
Definition cozinha : Sala :=
  ligar (criarSala "Cozinha" (Some "Copo quebrado com marca de batom"))
        None (Some sotao).
Definition hall : Sala :=
  ligar (criarSala "Hall de Entrada" (Some "Pegadas de lama recentes"))
        (Some biblioteca) (Some cozinha).

(** The state of [explorarMansao] at the top of its loop: the current room,
    the store [*raizPistas], and the console. *)
Record Config : Type := MkConfig {
  atual : Sala;
  raizPistas : PistaNode;
  entrada : list ascii;
  saida : list evento
}.

(** One turn of a loop: it goes on, it is left, or the input ran out at
    the read of the option. *)
Inductive Passo (C : Type) : Type :=
| Continua (c : C)
| Encerrado (c : C)
| SemEntrada (c : C).
Arguments Continua {C} c.
Arguments Encerrado {C} c.
Arguments SemEntrada {C} c.

Definition regua : string :=
  "--------------------------------------------------------" +:+ nl.

Definition msg_sem_esquerda : evento :=
  Txt "Caminho inexistente à esquerda! Pressione ENTER para continuar...".
Definition msg_sem_direita : evento :=
  Txt "Caminho inexistente à direita! Pressione ENTER para continuar...".
Definition msg_opcao_invalida : evento :=
  Txt "Opção inválida! Pressione ENTER para tentar novamente...".
Definition msg_encerrando : evento :=
  Txt (nl +:+ "Encerrando exploração..." +:+ nl).

(** The automatic collection: [*raizPistas] after the visit of a room. *)
Definition coletar (s : Sala) (raiz : PistaNode) : PistaNode :=
  if negb (vazia (sala_pista s)) then inserirPista raiz (Some (sala_pista s))
  else raiz.

Definition msg_pista (s : Sala) : evento :=
  if negb (vazia (sala_pista s))
  then Txt ("Pista encontrada: " +:+ aspas +:+ cstr (sala_pista s)
            +:+ aspas +:+ nl)
  else Txt ("Nenhuma pista encontrada aqui." +:+ nl).

Definition menu (s : Sala) : list evento :=
  [Txt (nl +:+ "Escolha o caminho:" +:+ nl)]
  ++ match sala_esquerda s with
     | Some e => [Txt (" (e) Ir para " +:+ cstr (sala_nome e) +:+ nl)]
     | None => []
     end
  ++ match sala_direita s with
     | Some d => [Txt (" (d) Ir para " +:+ cstr (sala_nome d) +:+ nl)]
     | None => []
     end
  ++ [Txt (" (s) Encerrar investigação" +:+ nl); Txt (nl +:+ "> ")].

(** What a turn writes before it reads the option. *)
Definition tela (s : Sala) : list evento :=
  [Limpar; Txt regua; Txt ("Local: " +:+ cstr (sala_nome s) +:+ nl); Txt regua;
   msg_pista s] ++ menu s.

Definition eh (c : ascii) (a b : ascii) : bool :=
  (uchar c =? uchar a) || (uchar c =? uchar b).

(** The body of the [while] of [explorarMansao]. *)
Definition explorarMansao_corpo (c : Config) : Passo Config :=
  let s := atual c in
  let raiz := coletar s (raizPistas c) in
  let out := saida c ++ tela s in
  match scanf_c (entrada c) with
  | None => SemEntrada (MkConfig s raiz [] out)
  | Some (opcao, resto) =>
      let resto := limparBufferEntrada resto in
      if eh opcao "e" "E" then
        match sala_esquerda s with
        | Some e => Continua (MkConfig e raiz resto out)
        | None =>
            Continua (MkConfig s raiz (limparBufferEntrada resto)
                               (out ++ [msg_sem_esquerda]))
        end
      else if eh opcao "d" "D" then
        match sala_direita s with
        | Some d => Continua (MkConfig d raiz resto out)
        | None =>
            Continua (MkConfig s raiz (limparBufferEntrada resto)
                               (out ++ [msg_sem_direita]))
        end
      else if eh opcao "s" "S" then
        Encerrado (MkConfig s raiz resto (out ++ [msg_encerrando]))
      else
        Continua (MkConfig s raiz (limparBufferEntrada resto)
                           (out ++ [msg_opcao_invalida]))
  end.

(** How a run of a loop ends. *)
Inductive Fim (C : Type) : Type :=
| Terminou (c : C)       (* the loop was left *)
| Aguardando (c : C)     (* the input ran out at a read of the option *)
| Esgotado (c : C).      (* the turns allowed ran out *)
Arguments Terminou {C} c.
Arguments Aguardando {C} c.
Arguments Esgotado {C} c.

(** The [while] loop, for at most [n] turns. *)
Fixpoint explorarMansao_laco (n : nat) (c : Config) : Fim Config :=
  match n with
  | O => Esgotado c
  | S n' =>
      match explorarMansao_corpo c with
      | Continua c' => explorarMansao_laco n' c'
      | Encerrado c' => Terminou c'
      | SemEntrada c' => Aguardando c'
      end
  end.

(** [explorarMansao(atual, &raizPistas, tabela)].  Every turn that goes on
    has read at least one character, so one turn more than there are
    characters is enough.  The table is not used by the function. *)
Definition explorarMansao (inicio : option Sala) (raiz : PistaNode)
    (tabela : Tabela) (stdin : list ascii) (stdout : list evento)
  : Fim Config + PistaNode * list ascii * list evento :=
  match inicio with
  | None => inr (raiz, stdin, stdout)
  | Some s =>
      inl (explorarMansao_laco (S (length stdin))
                               (MkConfig s raiz stdin stdout))
  end.

(** An option that does not move the player from room [s] nor ends the
    exploration. *)
Definition opcao_invalida (s : Sala) (opcao : ascii) : Prop :=
  (eh opcao "e" "E" = true /\ sala_esquerda s = None) \/
  (eh opcao "e" "E" = false /\ eh opcao "d" "D" = true /\
   sala_direita s = None) \/
  (eh opcao "e" "E" = false /\ eh opcao "d" "D" = false /\
   eh opcao "s" "S" = false).

(** A room without exits. *)
Definition folha (s : Sala) : Prop :=
  sala_esquerda s = None /\ sala_direita s = None.

(** The fields of a room are C strings that fit their arrays. *)
Definition sala_ok (s : Sala) : Prop :=
  cabe (MAX_NOME - 1) (sala_nome s) /\ cabe (MAX_PISTA - 1) (sala_pista s).

(** ** The exploration of the first program ("novato") *)

Module Novato.

Inductive Sala : Type := MkSala {
  sala_nome : string;
  sala_esquerda : option Sala;
  sala_direita : option Sala
}.

(** [strcpy(nova->nome, nome)]: the name is taken to fit [char nome[50]]. *)
Definition criarSala (nome : string) : Sala :=
  MkSala (cstr nome) None None.

Definition ligar (s : Sala) (e d : option Sala) : Sala :=
  MkSala (sala_nome s) e d.

Definition estudo : Sala := criarSala "Sala de Estudo".
Definition jardim : Sala := criarSala "Jardim".
Definition sotao : Sala := criarSala "Sótão".
Definition biblioteca : Sala :=
  ligar (criarSala "Biblioteca") (Some estudo) (Some jardim).
Definition cozinha : Sala :=
  ligar (criarSala "Cozinha") None (Some sotao).
Definition hall : Sala :=
  ligar (criarSala "Hall de Entrada") (Some biblioteca) (Some cozinha).

Record Config : Type := MkConfig {
  atual : Sala;
  entrada : list ascii;
  saida : list evento
}.

Definition regua : string :=
  "==============================================" +:+ nl.

Definition msg_fim : evento :=
  Txt (nl +:+ "Você chegou ao fim da exploração!" +:+ nl).
Definition msg_sem_esquerda : evento :=
  Txt ("Não há sala à esquerda!" +:+ nl).
Definition msg_sem_direita : evento :=
  Txt ("Não há sala à direita!" +:+ nl).
Definition msg_opcao_invalida : evento :=
  Txt ("Opção inválida! Tente novamente." +:+ nl).
Definition msg_saindo : evento :=
  Txt (nl +:+ "Saindo da exploração..." +:+ nl).

Definition cabecalho (s : Sala) : list evento :=
  [Limpar; Txt regua;
   Txt ("Você está na sala: " +:+ cstr (sala_nome s) +:+ nl); Txt regua].

Definition menu (s : Sala) : list evento :=
  [Txt (nl +:+ "Escolha o caminho:" +:+ nl)]
  ++ match sala_esquerda s with
     | Some e => [Txt (" (e) Ir para " +:+ cstr (sala_nome e) +:+ nl)]
     | None => []
     end
  ++ match sala_direita s with
     | Some d => [Txt (" (d) Ir para " +:+ cstr (sala_nome d) +:+ nl)]
     | None => []
     end
  ++ [Txt (" (s) Sair da exploração" +:+ nl); Txt (nl +:+ "> ")].

(** The body of the [while] of [explorarSalas]. *)
Definition explorarSalas_corpo (c : Config) : Passo Config :=
  let s := atual c in
  let out := saida c ++ cabecalho s in
  match sala_esquerda s, sala_direita s with
  | None, None => Encerrado (MkConfig s (entrada c) (out ++ [msg_fim]))
  | _, _ =>
      let out := out ++ menu s in
      match scanf_c (entrada c) with
      | None => SemEntrada (MkConfig s [] out)
      | Some (opcao, resto) =>
          let resto := limparBufferEntrada resto in
          if eh opcao "e" "E" then
            match sala_esquerda s with
            | Some e => Continua (MkConfig e resto out)
            | None => Continua (MkConfig s resto (out ++ [msg_sem_esquerda]))
            end
          else if eh opcao "d" "D" then
            match sala_direita s with
            | Some d => Continua (MkConfig d resto out)
            | None => Continua (MkConfig s resto (out ++ [msg_sem_direita]))
            end
          else if eh opcao "s" "S" then
            Encerrado (MkConfig s resto (out ++ [msg_saindo]))
          else
            Continua (MkConfig s resto (out ++ [msg_opcao_invalida]))
      end
  end.

Fixpoint explorarSalas_laco (n : nat) (c : Config) : Fim Config :=
  match n with
  | O => Esgotado c
  | S n' =>
      match explorarSalas_corpo c with
      | Continua c' => explorarSalas_laco n' c'
      | Encerrado c' => Terminou c'
      | SemEntrada c' => Aguardando c'
      end
  end.

(** [explorarSalas(atual)], for a room that is not NULL. *)
Definition explorarSalas (inicio : Sala) (stdin : list ascii)
    (stdout : list evento) : Fim Config :=
  explorarSalas_laco (S (length stdin)) (MkConfig inicio stdin stdout).

Definition folha (s : Sala) : Prop :=
  sala_esquerda s = None /\ sala_direita s = None.

End Novato.

(** ** Sample runs *)

(** The characters typed for a text. *)
Definition digitar (s : string) : list ascii := list_ascii_of_string s.

(** The store after the visit of the hall and of the garden. *)
Definition pistas_do_jardineiro : PistaNode :=
  inserirTodas PNULL
    ["Pegadas de lama recentes"; "Chave antiga caída entre as flores"].

(** The configuration a turn ends in. *)
Definition config_de {C : Type} (p : Passo C) : C :=
  match p with
  | Continua c => c
  | Encerrado c => c
  | SemEntrada c => c
  end.

(** ** The table seen as a list of associations *)

(** An association inserted with key [k] answers a search for [q]: it went
    to the bucket searched and its stored key is the text of [q]. *)
Definition casa (k q : string) : bool :=
  (hash k =? hash q) && bool_decide (strncpy (MAX_PISTA - 1) k = cstr q).

(** The suspect of the last association of the list that answers a search
    for [q]. *)
Fixpoint ultima_associacao (l : list (string * string)) (q : string)
  : option string :=
  match l with
  | [] => None
  | a :: r =>
      match ultima_associacao r q with
      | Some s => Some s
      | None => if casa (fst a) q then Some (snd a) else None
      end
  end.

(** No character of the text is a newline. *)
Fixpoint sem_LF (s : string) : Prop :=
  match s with
  | EmptyString => True
  | String c r => uchar c <> uchar LF /\ sem_LF r
  end.

(** ** Paths in the mansion *)

(** [caminho s l s']: [l] lists the rooms from [s] down to [s'], each one
    the left or the right room of the one before. *)
Inductive caminho : Sala -> list Sala -> Sala -> Prop :=
| caminho_aqui s : caminho s [s] s
| caminho_esquerda s e l s' :
    sala_esquerda s = Some e -> caminho e l s' -> caminho s (s :: l) s'
| caminho_direita s d l s' :
    sala_direita s = Some d -> caminho d l s' -> caminho s (s :: l) s'.

(** [P] holds of a room and of every room below it. *)
Fixpoint todas_as_salas (P : Sala -> Prop) (s : Sala) : Prop :=
  match s with
  | MkSala n p e d =>
      P (MkSala n p e d) /\
      match e with Some e' => todas_as_salas P e' | None => True end /\
      match d with Some d' => todas_as_salas P d' | None => True end
  end.

(** A direction typed at the menu. *)
Inductive Direcao : Type := Esquerda | Direita.

(** The rooms visited from [s] following the directions, [s] first; [None]
    when a direction has no room. *)
Fixpoint andar (s : Sala) (ds : list Direcao) {struct ds}
  : option (list Sala) :=
  match ds with
  | [] => Some [s]
  | d :: ds' =>
      match (match d with
             | Esquerda => sala_esquerda s
             | Direita => sala_direita s
             end) with
      | Some s' => option_map (cons s) (andar s' ds')
      | None => None
      end
  end.

(** The lines typed for the directions: one letter and a newline each. *)
Definition teclas (ds : list Direcao) : list ascii :=
  flat_map (fun d => [match d with
                      | Esquerda => "e"%char
                      | Direita => "d"%char
                      end; LF]) ds.

(** The store after the visit of the rooms of a list, in order. *)
Definition coletar_todas (l : list Sala) (raiz : PistaNode) : PistaNode :=
  fold_left (fun r s => coletar s r) l raiz.

(** The configuration a run ends in. *)
Definition config_do_fim {C : Type} (f : Fim C) : C :=
  match f with
  | Terminou c => c
  | Aguardando c => c
  | Esgotado c => c
  end.

(** ** Options and ways in the first program *)

(** An option that does not move the player from room [s] nor ends the
    exploration of the first program. *)
Definition novato_opcao_invalida (s : Novato.Sala) (opcao : ascii) : Prop :=
  (eh opcao "e" "E" = true /\ Novato.sala_esquerda s = None) \/
  (eh opcao "e" "E" = false /\ eh opcao "d" "D" = true /\
   Novato.sala_direita s = None) \/
  (eh opcao "e" "E" = false /\ eh opcao "d" "D" = false /\
   eh opcao "s" "S" = false).

(** The rooms visited from [s] following the directions, [s] first. *)
Fixpoint novato_andar (s : Novato.Sala) (ds : list Direcao) {struct ds}
  : option (list Novato.Sala) :=
  match ds with
  | [] => Some [s]
  | d :: ds' =>
      match (match d with
             | Esquerda => Novato.sala_esquerda s
             | Direita => Novato.sala_direita s
             end) with
      | Some s' => option_map (cons s) (novato_andar s' ds')
      | None => None
      end
  end.

(** The last thing written. *)
Definition termina_com (out : list evento) (e : evento) : Prop :=
  exists antes, out = antes ++ [e].

(** ** The second program ("aventureiro") *)

(** The rooms and the nodes have the fields of the last program in smaller
    arrays, [char nome[50]] and [char pista[100]], filled with [strcpy]:
    the texts are taken to fit, a longer one overruns the array and is
    outside what is described here. *)
Module Aventureiro.

Definition MAX_NOME : nat := 50.
Definition MAX_PISTA : nat := 100.

(** [strcpy(dst, src)]: the C string left in [dst]. *)
Definition strcpy (src : string) : string := cstr src.

Definition criarSala (nome : string) (pista : option string) : Sala :=
  MkSala (strcpy nome)
         (strcpy (match pista with Some p => p | None => EmptyString end))
         None None.

Fixpoint inserirPista (raiz : PistaNode) (pista : string) : PistaNode :=
  match raiz with
  | PNULL => PNo (strcpy pista) PNULL PNULL
  | PNo k e d =>
      if strcmp pista k <? 0 then PNo k (inserirPista e pista) d
      else if strcmp pista k >? 0 then PNo k e (inserirPista d pista)
      else raiz
  end.

Definition inserirTodas (raiz : PistaNode) (ps : list string) : PistaNode :=
  fold_left inserirPista ps raiz.

Definition regua : string :=
  "==============================================" +:+ nl.

Definition msg_sem_esquerda : evento := Txt ("Não há sala à esquerda!" +:+ nl).
Definition msg_sem_direita : evento := Txt ("Não há sala à direita!" +:+ nl).
Definition msg_opcao_invalida : evento :=
  Txt ("Opção inválida! Tente novamente." +:+ nl).
Definition msg_saindo : evento :=
  Txt (nl +:+ "Saindo da exploração..." +:+ nl).

(** [strlen(atual->pista) > 0] decides the collection. *)
Definition coletar (s : Sala) (raiz : PistaNode) : PistaNode :=
  if negb (vazia (sala_pista s)) then inserirPista raiz (sala_pista s)
  else raiz.

Definition menu (s : Sala) : list evento :=
  [Txt (nl +:+ "Escolha o caminho:" +:+ nl)]
  ++ match sala_esquerda s with
     | Some e => [Txt (" (e) Ir para " +:+ cstr (sala_nome e) +:+ nl)]
     | None => []
     end
  ++ match sala_direita s with
     | Some d => [Txt (" (d) Ir para " +:+ cstr (sala_nome d) +:+ nl)]
     | None => []
     end
  ++ [Txt (" (s) Sair da exploração" +:+ nl); Txt (nl +:+ "> ")].

Definition tela (s : Sala) : list evento :=
  [Limpar; Txt regua;
   Txt ("Você está na sala: " +:+ cstr (sala_nome s) +:+ nl); Txt regua;
   msg_pista s] ++ menu s.

(** The body of the [while] of [explorarSalasComPistas]. *)
Definition explorarSalasComPistas_corpo (c : Config) : Passo Config :=
  let s := atual c in
  let raiz := coletar s (raizPistas c) in
  let out := saida c ++ tela s in
  match scanf_c (entrada c) with
  | None => SemEntrada (MkConfig s raiz [] out)
  | Some (opcao, resto) =>
      let resto := limparBufferEntrada resto in
      if eh opcao "e" "E" then
        match sala_esquerda s with
        | Some e => Continua (MkConfig e raiz resto out)
        | None => Continua (MkConfig s raiz resto (out ++ [msg_sem_esquerda]))
        end
      else if eh opcao "d" "D" then
        match sala_direita s with
        | Some d => Continua (MkConfig d raiz resto out)
        | None => Continua (MkConfig s raiz resto (out ++ [msg_sem_direita]))
        end
      else if eh opcao "s" "S" then
        Encerrado (MkConfig s raiz resto (out ++ [msg_saindo]))
      else
        Continua (MkConfig s raiz resto (out ++ [msg_opcao_invalida]))
  end.

Fixpoint explorarSalasComPistas_laco (n : nat) (c : Config) : Fim Config :=
  match n with
  | O => Esgotado c
  | S n' =>
      match explorarSalasComPistas_corpo c with
      | Continua c' => explorarSalasComPistas_laco n' c'
      | Encerrado c' => Terminou c'
      | SemEntrada c' => Aguardando c'
      end
  end.

(** [explorarSalasComPistas(atual, &raizPistas)], for a room that is not
    NULL. *)
Definition explorarSalasComPistas (inicio : Sala) (raiz : PistaNode)
    (stdin : list ascii) (stdout : list evento) : Fim Config :=
  explorarSalasComPistas_laco (S (length stdin))
                              (MkConfig inicio raiz stdin stdout).

(** The fields of a room fit the arrays of this program. *)
Definition sala_ok (s : Sala) : Prop :=
  cabe (MAX_NOME - 1) (sala_nome s) /\ cabe (MAX_PISTA - 1) (sala_pista s).

End Aventureiro.

(** ** The program of the last level *)

(** How a program ends: it returns from [main] with a status, or it is
    still in the exploration when the input runs out. *)
Inductive Execucao : Type :=
| Retornou (status : Z) (stdin : list ascii) (stdout : list evento)
| Suspenso (f : Fim Config).

Definition regua_dupla : string :=
  "========================================================" +:+ nl.

Definition titulo_main : list evento :=
  [ Limpar;
    Txt regua_dupla;
    Txt ("  DETECTIVE QUEST - NÍVEL MESTRE (Investigaçã o Final)" +:+ nl);
    Txt (regua_dupla +:+ nl) ].

Definition titulo_pistas : list evento :=
  [ Limpar;
    Txt regua_dupla;
    Txt ("               PISTAS COLETADAS (ORDENADAS)" +:+ nl);
    Txt (regua_dupla +:+ nl) ].

Definition msg_finalizada : evento :=
  Txt (nl +:+ "Investigação finalizada. Obrigado por jogar Detective Quest!"
       +:+ nl).

(** [main] from the return of [explorarMansao] on. *)
Definition main_depois (raiz : PistaNode) (stdin : list ascii)
    (stdout : list evento) : Execucao :=
  let out := stdout ++ titulo_pistas ++ map Txt (exibirPistas raiz) in
  let j := verificarSuspeitoFinal tabela_da_mansao raiz stdin in
  Retornou 0 (jg_entrada j) (out ++ jg_saida j ++ [msg_finalizada]).

Definition main (stdin : list ascii) : Execucao :=
  match explorarMansao (Some hall) PNULL tabela_da_mansao stdin titulo_main with
  | inl (Terminou c) => main_depois (raizPistas c) (entrada c) (saida c)
  | inl f => Suspenso f
  | inr (raiz, stdin', stdout) => main_depois raiz stdin' stdout
  end.

(** ** The loops at end of file *)




(** The same for [explorarSalas] of the first program. *)
Definition explorarSalas_ramo (s : Novato.Sala) (out : list evento)
    (opcao : ascii) (resto : list ascii) : Passo Novato.Config :=
  if eh opcao "e" "E" then
    match Novato.sala_esquerda s with
    | Some e => Continua (Novato.MkConfig e resto out)
    | None =>
        Continua (Novato.MkConfig s resto (out ++ [Novato.msg_sem_esquerda]))
    end
  else if eh opcao "d" "D" then
    match Novato.sala_direita s with
    | Some d => Continua (Novato.MkConfig d resto out)
    | None =>
        Continua (Novato.MkConfig s resto (out ++ [Novato.msg_sem_direita]))
    end
  else if eh opcao "s" "S" then
    Encerrado (Novato.MkConfig s resto (out ++ [Novato.msg_saindo]))
  else
    Continua (Novato.MkConfig s resto (out ++ [Novato.msg_opcao_invalida])).

Definition explorarSalas_corpo_eof (opcao : ascii) (c : Novato.Config)
  : ascii * Passo Novato.Config :=
  let s := Novato.atual c in
  let out := Novato.saida c ++ Novato.cabecalho s in
  match Novato.sala_esquerda s, Novato.sala_direita s with
  | None, None =>
      (opcao, Encerrado (Novato.MkConfig s (Novato.entrada c)
                           (out ++ [Novato.msg_fim])))
  | _, _ =>
      let out := out ++ Novato.menu s in
      match scanf_c (Novato.entrada c) with
      | Some (lida, resto) =>
          (lida, explorarSalas_ramo s out lida (limparBufferEntrada resto))
      | None =>
          (opcao, explorarSalas_ramo s out opcao (limparBufferEntrada []))
      end
  end.

Fixpoint explorarSalas_completo (n : nat) (opcao : ascii) (c : Novato.Config)
  : Fim Novato.Config :=
  match n with
  | O => Esgotado c
  | S n' =>
      match explorarSalas_corpo_eof opcao c with
      | (opcao', Continua c') => explorarSalas_completo n' opcao' c'
      | (_, Encerrado c') => Terminou c'
      | (_, SemEntrada c') => Aguardando c'
      end
  end.




(** * Properties *)

(** ** C strings *)

Lemma uchar_range c : 0 <= uchar c < 256.
Proof.
  unfold uchar. pose proof (N_ascii_bounded c) as H. lia.
Qed.

Lemma uchar_inj c1 c2 : uchar c1 = uchar c2 -> c1 = c2.
Proof.
  unfold uchar. intros H. apply N2Z.inj in H.
  rewrite <- (ascii_N_embedding c1), <- (ascii_N_embedding c2). now rewrite H.
Qed.

Lemma strcmp_refl a : strcmp a a = 0.
Proof.
  induction a as [|x a IH]; simpl; [reflexivity|].
  rewrite Z.eqb_refl. now destruct (uchar x =? 0).
Qed.

Lemma strcmp_antisym a b : strcmp b a = - strcmp a b.
Proof.
  revert b. induction a as [|x a IH]; intros [|y b]; simpl; try lia.
  rewrite (Z.eqb_sym (uchar y) (uchar x)).
  destruct (uchar x =? uchar y) eqn:E.
  - apply Z.eqb_eq in E. rewrite E.
    destruct (uchar y =? 0); [reflexivity | apply IH].
  - lia.
Qed.

Lemma strcmp_eq_cstr a b : strcmp a b = 0 <-> cstr a = cstr b.
Proof.
  revert b. induction a as [|x a IH]; intros [|y b]; simpl.
  - tauto.
  - pose proof (uchar_range y).
    destruct (uchar y =? 0) eqn:E; [apply Z.eqb_eq in E | apply Z.eqb_neq in E];
      split; intros; try congruence; lia.
  - pose proof (uchar_range x).
    destruct (uchar x =? 0) eqn:E; [apply Z.eqb_eq in E | apply Z.eqb_neq in E];
      split; intros; try congruence; lia.
  - destruct (uchar x =? uchar y) eqn:E.
    + apply Z.eqb_eq in E. rewrite <- E.
      destruct (uchar x =? 0); [tauto|].
      apply uchar_inj in E. subst y. rewrite IH.
      split; [congruence | intros H; now inversion H].
    + apply Z.eqb_neq in E.
      destruct (uchar x =? 0) eqn:Ex; destruct (uchar y =? 0) eqn:Ey;
        try apply Z.eqb_eq in Ex; try apply Z.eqb_eq in Ey;
        split; intros H; try lia; try discriminate.
      inversion H. subst. congruence.
Qed.

Ltac casos_eqb :=
  repeat match goal with
  | |- context [?u =? ?v] =>
      let E := fresh "E" in
      destruct (u =? v) eqn:E;
      [apply Z.eqb_eq in E | apply Z.eqb_neq in E]
  | H : context [?u =? ?v] |- _ =>
      let E := fresh "E" in
      destruct (u =? v) eqn:E;
      [apply Z.eqb_eq in E | apply Z.eqb_neq in E]
  end.

Lemma strcmp_trans a b c :
  strcmp a b <= 0 -> strcmp b c <= 0 ->
  strcmp a c <= 0 /\ (strcmp a b < 0 \/ strcmp b c < 0 -> strcmp a c < 0).
Proof.
  revert b c. induction a as [|x a IH]; intros [|y b] [|z c]; simpl;
    try pose proof (uchar_range x); try pose proof (uchar_range y);
    try pose proof (uchar_range z); intros Hab Hbc;
    casos_eqb; try lia.
  - apply IH; assumption.
Qed.

Lemma strcmp_lt_trans a b c :
  strcmp a b < 0 -> strcmp b c < 0 -> strcmp a c < 0.
Proof.
  intros H1 H2. apply (strcmp_trans a b c); lia.
Qed.

Lemma strcmp_le_lt_trans a b c :
  strcmp a b <= 0 -> strcmp b c < 0 -> strcmp a c < 0.
Proof.
  intros H1 H2. apply (strcmp_trans a b c); lia.
Qed.

Lemma strcmp_lt_le_trans a b c :
  strcmp a b < 0 -> strcmp b c <= 0 -> strcmp a c < 0.
Proof.
  intros H1 H2. apply (strcmp_trans a b c); lia.
Qed.

Lemma strcmp_le_trans a b c :
  strcmp a b <= 0 -> strcmp b c <= 0 -> strcmp a c <= 0.
Proof.
  intros H1 H2. apply (strcmp_trans a b c); lia.
Qed.

Lemma cstr_idem s : cstr (cstr s) = cstr s.
Proof.
  induction s as [|c s IH]; simpl; [reflexivity|].
  destruct (uchar c =? 0) eqn:E; simpl; [reflexivity|].
  now rewrite E, IH.
Qed.

Lemma vazia_cstr s : vazia s = true <-> cstr s = EmptyString.
Proof.
  destruct s as [|c s]; simpl; [tauto|].
  destruct (uchar c =? 0); split; intros; congruence.
Qed.

Lemma strcmp_cstr_l a b : strcmp (cstr a) b = strcmp a b.
Proof.
  revert b. induction a as [|x a IH]; intros [|y b]; simpl; try reflexivity.
  - destruct (uchar x =? 0) eqn:E; simpl; [apply Z.eqb_eq in E; lia | reflexivity].
  - pose proof (uchar_range y).
    destruct (uchar x =? 0) eqn:E; simpl.
    + apply Z.eqb_eq in E. rewrite E. casos_eqb; lia.
    + rewrite E, IH. reflexivity.
Qed.

Lemma strcmp_cstr_r a b : strcmp a (cstr b) = strcmp a b.
Proof.
  rewrite (strcmp_antisym (cstr b) a), strcmp_cstr_l, <- strcmp_antisym.
  reflexivity.
Qed.

Lemma strncpy_cstr n s : cstr (strncpy n s) = strncpy n s.
Proof.
  revert s. induction n as [|n IH]; intros [|c s]; simpl; try reflexivity.
  destruct (uchar c =? 0) eqn:E; simpl; [reflexivity|].
  now rewrite E, IH.
Qed.

Lemma strncpy_length n s : (String.length (strncpy n s) <= n)%nat.
Proof.
  revert s. induction n as [|n IH]; intros [|c s]; simpl; try lia.
  destruct (uchar c =? 0); simpl; [lia|].
  specialize (IH s). lia.
Qed.

Lemma strncpy_cabe n s : cabe n (strncpy n s).
Proof.
  split; [apply strncpy_cstr | apply strncpy_length].
Qed.

Lemma strncpy_curta n s :
  (String.length (cstr s) <= n)%nat -> strncpy n s = cstr s.
Proof.
  revert s. induction n as [|n IH]; intros [|c s]; simpl; try reflexivity.
  - destruct (uchar c =? 0); simpl; [reflexivity | lia].
  - destruct (uchar c =? 0); simpl; [reflexivity|].
    intros H. rewrite IH; [reflexivity | lia].
Qed.

Lemma strncpy_cabe_id n s : cabe n s -> strncpy n s = s.
Proof.
  intros [Hc Hl]. rewrite strncpy_curta; rewrite Hc; [reflexivity | exact Hl].
Qed.

(** Truncation keeps a text on the side of a stored key it was on, up to
    equality on the right. *)
Lemma strcmp_strncpy_lt n q k :
  (String.length (cstr k) <= n)%nat ->
  strcmp q k < 0 -> strcmp (strncpy n q) k < 0.
Proof.
  revert q k. induction n as [|n IH]; intros [|x q] [|y k]; simpl;
    try pose proof (uchar_range x); try pose proof (uchar_range y);
    intros Hl Hc; repeat (casos_eqb; simpl in * ); try lia.
  apply IH; [lia | assumption].
Qed.

Lemma strcmp_strncpy_ge n q k :
  (String.length (cstr k) <= n)%nat ->
  strcmp q k > 0 -> strcmp k (strncpy n q) <= 0.
Proof.
  revert q k. induction n as [|n IH]; intros [|x q] [|y k]; simpl;
    try pose proof (uchar_range x); try pose proof (uchar_range y);
    intros Hl Hc; repeat (casos_eqb; simpl in * ); try lia.
  apply IH; [lia | assumption].
Qed.

Lemma vazia_cstr_eq p : vazia (cstr p) = vazia p.
Proof.
  destruct p as [|c p]; simpl; [reflexivity|].
  destruct (uchar c =? 0) eqn:E; simpl; [reflexivity | exact E].
Qed.

Lemma strncpy_de_cstr n p : strncpy n (cstr p) = strncpy n p.
Proof.
  revert p. induction n as [|n IH]; intros [|c p]; simpl; try reflexivity.
  destruct (uchar c =? 0) eqn:E; simpl; [reflexivity|].
  now rewrite E, IH.
Qed.

Global Arguments strncpy : simpl never.

(** ** The clue store *)

Lemma exibirPistas_em_ordem t : exibirPistas t = map linha_pista (em_ordem t).
Proof.
  induction t as [|k e IHe d IHd]; simpl; [reflexivity|].
  rewrite map_app. simpl. now rewrite IHe, IHd.
Qed.

Lemma inserirPista_vazia t p : vazia p = true -> inserirPista t (Some p) = t.
Proof.
  intros H. destruct t; simpl; now rewrite H.
Qed.

(** What holds of the stored texts and of the new one holds of the texts
    after the insertion. *)
Lemma em_ordem_inserir_Forall (P : string -> Prop) t p :
  Forall P (em_ordem t) -> P (strncpy (MAX_PISTA - 1) p) ->
  Forall P (em_ordem (inserirPista t (Some p))).
Proof.
  intros Ht Hp. induction t as [|k e IHe d IHd].
  - simpl. destruct (vazia p); simpl; [constructor | repeat constructor; exact Hp].
  - simpl. destruct (vazia p); [exact Ht|].
    simpl in Ht. apply Forall_app in Ht as [He Hd]. apply Forall_cons in Hd as [Hk Hd].
    destruct (strcmp p k <? 0); [|destruct (strcmp p k >? 0)]; simpl.
    + apply Forall_app. split; [apply IHe; exact He | constructor; assumption].
    + apply Forall_app. split; [exact He | constructor; [exact Hk | apply IHd; exact Hd]].
    + apply Forall_app. split; [exact He | constructor; assumption].
Qed.

Lemma chaves_ok_inserir t p :
  chaves_ok t -> chaves_ok (inserirPista t (Some p)).
Proof.
  intros H. apply em_ordem_inserir_Forall; [exact H | apply strncpy_cabe].
Qed.

Section Arvore.
Variable Rd : string -> string -> Prop.

Lemma abr_inserir t p :
  entra_a_direita Rd p -> chaves_ok t -> abr Rd t ->
  abr Rd (inserirPista t (Some p)).
Proof.
  intros Hp. induction t as [|k e IHe d IHd]; intros Hc Ht.
  - simpl. destruct (vazia p); simpl; [exact I|].
    repeat split; constructor.
  - simpl. destruct (vazia p); [exact Ht|].
    destruct Ht as (Hl & Hr & He & Hd).
    unfold chaves_ok in Hc. simpl in Hc.
    apply Forall_app in Hc as [Hce Hcd]. apply Forall_cons in Hcd as [Hck Hcd].
    destruct (strcmp p k <? 0) eqn:E1; [|destruct (strcmp p k >? 0) eqn:E2]; simpl.
    + apply Z.ltb_lt in E1. repeat split; try assumption.
      * apply em_ordem_inserir_Forall; [exact Hl|].
        apply strcmp_strncpy_lt; [|exact E1].
        destruct Hck as [Hk1 Hk2]. now rewrite Hk1.
      * apply IHe; assumption.
    + apply Z.gtb_gt in E2. repeat split; try assumption.
      * apply em_ordem_inserir_Forall; [exact Hr|].
        apply Hp; assumption.
      * apply IHd; assumption.
    + repeat split; assumption.
Qed.

Hypothesis abaixo_Rd : forall a b, abaixo a b -> Rd a b.
Hypothesis abaixo_Rd_trans : forall a b c, abaixo a b -> Rd b c -> abaixo a c.

Lemma abr_ordenada t : abr Rd t -> StronglySorted Rd (em_ordem t).
Proof.
  induction t as [|k e IHe d IHd]; simpl.
  - intros _. constructor.
  - intros (Hl & Hr & He & Hd).
    apply StronglySorted_app_2.
    + intros x1 x2 H1 H2.
      rewrite Forall_forall in Hl. specialize (Hl _ H1).
      apply elem_of_cons in H2 as [->|H2].
      * apply abaixo_Rd, Hl.
      * rewrite Forall_forall in Hr. specialize (Hr _ H2).
        apply abaixo_Rd. eapply abaixo_Rd_trans; eassumption.
    + apply IHe, He.
    + constructor; [apply IHd, Hd | exact Hr].
Qed.
End Arvore.

Lemma entra_a_direita_ate p : entra_a_direita ate p.
Proof.
  intros k [Hk Hl] Hp. apply strcmp_strncpy_ge; [|exact Hp].
  rewrite Hk. exact Hl.
Qed.

Lemma entra_a_direita_abaixo p :
  (String.length (cstr p) <= MAX_PISTA - 1)%nat -> entra_a_direita abaixo p.
Proof.
  intros Hl k _ Hp. unfold abaixo.
  rewrite strncpy_curta by exact Hl.
  rewrite strcmp_cstr_r, strcmp_antisym. lia.
Qed.

Lemma armazem_ok_vazio : armazem_ok PNULL.
Proof. split; [exact I | constructor]. Qed.

Lemma armazem_ok_inserir t p :
  armazem_ok t -> armazem_ok (inserirPista t (Some p)).
Proof.
  intros [Ha Hc]. split.
  - apply abr_inserir; [apply entra_a_direita_ate | exact Hc | exact Ha].
  - apply chaves_ok_inserir, Hc.
Qed.

Lemma armazem_ok_inserirTodas ps t :
  armazem_ok t -> armazem_ok (inserirTodas t ps).
Proof.
  revert t. induction ps as [|p ps IH]; intros t Ht; simpl; [exact Ht|].
  apply IH, armazem_ok_inserir, Ht.
Qed.

Lemma abr_abaixo_inserirTodas ps t :
  Forall (fun p => (String.length (cstr p) <= MAX_PISTA - 1)%nat) ps ->
  chaves_ok t -> abr abaixo t ->
  chaves_ok (inserirTodas t ps) /\ abr abaixo (inserirTodas t ps).
Proof.
  revert t. induction ps as [|p ps IH]; intros t Hps Hc Ha; simpl; [tauto|].
  apply Forall_cons in Hps as [Hp Hps].
  apply IH; [exact Hps | apply chaves_ok_inserir, Hc |].
  apply abr_inserir; [apply entra_a_direita_abaixo, Hp | exact Hc | exact Ha].
Qed.

Lemma ordenada_ate t : abr ate t -> StronglySorted ate (em_ordem t).
Proof.
  apply abr_ordenada; unfold abaixo, ate.
  - intros a b H. lia.
  - intros a b c. apply strcmp_lt_le_trans.
Qed.

Lemma ordenada_abaixo t : abr abaixo t -> StronglySorted abaixo (em_ordem t).
Proof.
  apply abr_ordenada; unfold abaixo.
  - tauto.
  - intros a b c. apply strcmp_lt_trans.
Qed.

Lemma ordenada_abaixo_NoDup l : StronglySorted abaixo l -> NoDup l.
Proof.
  induction 1 as [|x l Hs IH Hx]; constructor; [|exact IH].
  intros Hin. rewrite Forall_forall in Hx. specialize (Hx _ Hin).
  unfold abaixo in Hx. rewrite strcmp_refl in Hx. lia.
Qed.

(** The texts of the store after an insertion. *)
Lemma em_ordem_inserir_elem t p x :
  chaves_ok t ->
  x ∈ em_ordem (inserirPista t (Some p)) <->
  x ∈ em_ordem t \/ (vazia p = false /\ x = strncpy (MAX_PISTA - 1) p).
Proof.
  intros Hc. induction t as [|k e IHe d IHd]; cbn [inserirPista em_ordem].
  - destruct (vazia p); cbn [em_ordem app].
    + split; [tauto | intros [H|[H _]]; [exact H | discriminate]].
    + rewrite list_elem_of_singleton. rewrite elem_of_nil. tauto.
  - unfold chaves_ok in Hc. cbn [em_ordem] in Hc.
    apply Forall_app in Hc as [Hce Hcd]. apply Forall_cons in Hcd as [Hck Hcd].
    destruct (vazia p) eqn:Ev.
    + split; [tauto | intros [H|[H _]]; [exact H | discriminate]].
    + destruct (strcmp p k <? 0) eqn:E1; [|destruct (strcmp p k >? 0) eqn:E2];
        cbn [em_ordem].
      * rewrite !elem_of_app, !elem_of_cons, (IHe Hce). tauto.
      * rewrite !elem_of_app, !elem_of_cons, (IHd Hcd). tauto.
      * apply Z.ltb_ge in E1. rewrite Z.gtb_ltb in E2. apply Z.ltb_ge in E2.
        assert (E : strcmp p k = 0) by lia.
        apply strcmp_eq_cstr in E. destruct Hck as [Hk1 Hk2].
        rewrite Hk1 in E.
        assert (Hs : strncpy (MAX_PISTA - 1) p = k).
        { rewrite strncpy_curta; rewrite E; [reflexivity | exact Hk2]. }
        rewrite Hs, !elem_of_app, !elem_of_cons. tauto.
Qed.

Lemma em_ordem_inserirTodas_elem ps t x :
  chaves_ok t ->
  x ∈ em_ordem (inserirTodas t ps) <->
  x ∈ em_ordem t \/
  exists p, p ∈ ps /\ vazia p = false /\ x = strncpy (MAX_PISTA - 1) p.
Proof.
  revert t. induction ps as [|p ps IH]; intros t Hc; simpl.
  - split; [tauto | intros [H|(p & H & _)]; [exact H | now apply elem_of_nil in H]].
  - rewrite IH by (apply chaves_ok_inserir, Hc).
    rewrite em_ordem_inserir_elem by exact Hc.
    split.
    + intros [[H|H]|(q & Hq & H)]; [tauto | right; exists p | right; exists q];
        (split; [|exact H]); [apply list_elem_of_here | now apply list_elem_of_further].
    + intros [H|(q & Hq & H)]; [tauto|].
      apply elem_of_cons in Hq as [->|Hq]; [tauto | right; exists q; tauto].
Qed.

(** A text found in the store is not inserted again. *)
Lemma inserir_presente t p :
  abr ate t -> p ∈ em_ordem t -> inserirPista t (Some p) = t.
Proof.
  induction t as [|k e IHe d IHd]; simpl; intros Ha Hin.
  - now apply elem_of_nil in Hin.
  - destruct (vazia p); [reflexivity|].
    destruct Ha as (Hl & Hr & He & Hd).
    rewrite Forall_forall in Hl. rewrite Forall_forall in Hr.
    unfold abaixo, ate in *.
    apply elem_of_app in Hin as [Hin|Hin]; [|apply elem_of_cons in Hin as [->|Hin]].
    + specialize (Hl _ Hin).
      destruct (strcmp p k <? 0) eqn:E1; [|apply Z.ltb_ge in E1; lia].
      now rewrite IHe.
    + rewrite strcmp_refl. reflexivity.
    + specialize (Hr _ Hin). rewrite (strcmp_antisym p k) in Hr.
      destruct (strcmp p k <? 0) eqn:E1; [apply Z.ltb_lt in E1; lia|].
      destruct (strcmp p k >? 0) eqn:E2; [|reflexivity].
      now rewrite IHd.
Qed.

(** Only the C string of the argument matters to the insertion. *)
Lemma inserirPista_cstr t p :
  inserirPista t (Some (cstr p)) = inserirPista t (Some p).
Proof.
  induction t as [|k e IHe d IHd]; cbn [inserirPista];
    rewrite vazia_cstr_eq; destruct (vazia p); try reflexivity.
  - now rewrite strncpy_de_cstr.
  - rewrite strcmp_cstr_l.
    destruct (strcmp p k <? 0); [now rewrite IHe|].
    destruct (strcmp p k >? 0); [now rewrite IHd | reflexivity].
Qed.

(** Inserting twice a text that fits a node is inserting it once. *)
Lemma inserirPista_idempotente t p :
  armazem_ok t -> (String.length (cstr p) <= MAX_PISTA - 1)%nat ->
  inserirPista (inserirPista t (Some p)) (Some p) = inserirPista t (Some p).
Proof.
  intros Ht Hl. destruct (vazia p) eqn:Ev.
  - now rewrite !inserirPista_vazia.
  - rewrite <- (inserirPista_cstr (inserirPista t (Some p)) p).
    apply inserir_presente; [apply armazem_ok_inserir, Ht|].
    apply em_ordem_inserir_elem; [apply Ht|].
    right. split; [exact Ev|]. symmetry. apply strncpy_curta, Hl.
Qed.

(** In-order enumeration is ascending whatever was inserted. *)
Lemma enumeracao_crescente ps :
  StronglySorted ate (em_ordem (inserirTodas PNULL ps)).
Proof.
  apply ordenada_ate, armazem_ok_inserirTodas, armazem_ok_vazio.
Qed.

(** C2 (as amended). For every sequence of clue texts of at most
    [MAX_PISTA - 1] = 127 bytes each, inserted into the empty store, the
    in-order enumeration written by [exibirPistas] is strictly ascending
    under [strcmp], has no duplicates, and holds exactly the non-empty
    texts inserted. *)
Theorem enumeracao_estritamente_crescente (ps : list string) :
  Forall (fun p => (String.length (cstr p) <= MAX_PISTA - 1)%nat) ps ->
  let t := inserirTodas PNULL ps in
  exibirPistas t = map linha_pista (em_ordem t) /\
  StronglySorted abaixo (em_ordem t) /\
  NoDup (em_ordem t) /\
  (forall x, x ∈ em_ordem t <->
             exists p, p ∈ ps /\ vazia p = false /\ x = cstr p).
Proof.
  intros Hps t.
  destruct (abr_abaixo_inserirTodas ps PNULL Hps) as [Hc Ha];
    [constructor | exact I |].
  assert (Hs : StronglySorted abaixo (em_ordem t)) by (apply ordenada_abaixo, Ha).
  split; [apply exibirPistas_em_ordem|].
  split; [exact Hs|].
  split; [apply ordenada_abaixo_NoDup, Hs|].
  intros x. unfold t. rewrite em_ordem_inserirTodas_elem by constructor.
  cbn [em_ordem]. rewrite elem_of_nil.
  rewrite Forall_forall in Hps.
  split.
  - intros [[]|(p & Hp & Hv & Hx)]. exists p.
    rewrite strncpy_curta in Hx by (apply Hps, Hp). tauto.
  - intros (p & Hp & Hv & Hx). right. exists p.
    rewrite strncpy_curta by (apply Hps, Hp). tauto.
Qed.

Lemma enumeracao_estritamente_crescente_witness :
  Forall (fun p => (String.length (cstr p) <= MAX_PISTA - 1)%nat)
         pistas_da_mansao /\
  StronglySorted abaixo (em_ordem (inserirTodas PNULL pistas_da_mansao)).
Proof.
  assert (H : Forall (fun p => (String.length (cstr p) <= MAX_PISTA - 1)%nat)
                     pistas_da_mansao).
  { repeat (constructor; [vm_compute; lia|]). constructor. }
  split; [exact H|].
  apply (enumeracao_estritamente_crescente pistas_da_mansao H).
Defined.

(** Counterexample to C2 as stated: a text of 128 bytes inserted twice is
    stored twice, truncated to the same 127 bytes. *)
Lemma enumeracao_com_repeticao :
  em_ordem (inserirTodas PNULL [texto_longo; texto_longo])
  = [repetir 127 "a"%char; repetir 127 "a"%char] /\
  ~ StronglySorted abaixo
      (em_ordem (inserirTodas PNULL [texto_longo; texto_longo])) /\
  ~ NoDup (em_ordem (inserirTodas PNULL [texto_longo; texto_longo])).
Proof.
  assert (E : em_ordem (inserirTodas PNULL [texto_longo; texto_longo])
              = [repetir 127 "a"%char; repetir 127 "a"%char])
    by (vm_compute; reflexivity).
  split; [exact E|]. rewrite E. split.
  - intros H. apply ordenada_abaixo_NoDup in H.
    apply NoDup_cons in H as [H _]. apply H. constructor.
  - intros H. apply NoDup_cons in H as [H _]. apply H. constructor.
Qed.

(** The comparison is exact: a text that differs in case only is another
    text. *)
Example maiusculas_sao_outro_texto :
  em_ordem (inserirTodas PNULL ["pegadas"; "Pegadas"; "pegadas"])
  = ["Pegadas"; "pegadas"].
Proof. reflexivity. Qed.

(** C7 (as amended). For every clue store (the store after any sequence
    of insertions) and every clue text of at most [MAX_PISTA - 1] = 127
    bytes, inserting the text a second time changes nothing: the tree, and
    so the sequence enumerated, after the second insertion is the one after
    the first.  And a text that is in the store, byte for byte, is not
    inserted again. *)
Theorem inserir_de_novo_sem_efeito (ps : list string) (p : string) :
  (String.length (cstr p) <= MAX_PISTA - 1)%nat ->
  let t := inserirTodas PNULL ps in
  inserirPista (inserirPista t (Some p)) (Some p) = inserirPista t (Some p) /\
  exibirPistas (inserirPista (inserirPista t (Some p)) (Some p))
  = exibirPistas (inserirPista t (Some p)) /\
  (p ∈ em_ordem t ->
   inserirPista t (Some p) = t /\
   exibirPistas (inserirPista t (Some p)) = exibirPistas t).
Proof.
  intros Hl t.
  assert (Ht : armazem_ok t)
    by apply (armazem_ok_inserirTodas ps PNULL armazem_ok_vazio).
  assert (H : inserirPista (inserirPista t (Some p)) (Some p)
              = inserirPista t (Some p))
    by (apply inserirPista_idempotente; assumption).
  split; [exact H|]. split; [now rewrite H|].
  intros Hin.
  assert (H' : inserirPista t (Some p) = t)
    by (apply inserir_presente; [apply Ht | exact Hin]).
  split; [exact H' | now rewrite H'].
Qed.

Lemma inserir_de_novo_sem_efeito_witness :
  (String.length (cstr "Faca de cozinha") <= MAX_PISTA - 1)%nat /\
  exibirPistas
    (inserirPista (inserirPista (inserirTodas PNULL pistas_da_mansao)
                                (Some "Faca de cozinha"))
                  (Some "Faca de cozinha"))
  = exibirPistas (inserirPista (inserirTodas PNULL pistas_da_mansao)
                               (Some "Faca de cozinha")).
Proof.
  assert (H : (String.length (cstr "Faca de cozinha") <= MAX_PISTA - 1)%nat)
    by (vm_compute; lia).
  split; [exact H|].
  apply (inserir_de_novo_sem_efeito pistas_da_mansao "Faca de cozinha" H).
Defined.

(** Counterexample to C7 as stated: after a text of 128 bytes is inserted,
    the store holds its first 127 bytes; inserting the same text again
    compares it above that node and adds a second node, so the sequence
    enumerated after the second insertion has two lines where it had
    one. *)
Lemma inserir_texto_longo_de_novo :
  em_ordem (inserirPista PNULL (Some texto_longo)) = [repetir 127 "a"%char] /\
  em_ordem (inserirPista (inserirPista PNULL (Some texto_longo))
                         (Some texto_longo))
  = [repetir 127 "a"%char; repetir 127 "a"%char] /\
  exibirPistas (inserirPista (inserirPista PNULL (Some texto_longo))
                             (Some texto_longo))
  <> exibirPistas (inserirPista PNULL (Some texto_longo)).
Proof.
  split; [vm_compute; reflexivity|]. split; [vm_compute; reflexivity|].
  intros H. apply (f_equal length) in H. vm_compute in H. discriminate H.
Qed.

(** ** The hash function *)

Lemma soma_bytes_nonneg s : 0 <= soma_bytes s.
Proof.
  induction s as [|c s IH]; simpl; [lia|].
  pose proof (uchar_range c). lia.
Qed.

Lemma hash_laco_soma soma p :
  0 <= soma < UINT_MOD ->
  hash_laco soma p = (soma + soma_bytes (cstr p)) mod UINT_MOD.
Proof.
  revert soma. induction p as [|c p IH]; intros soma Hs; simpl.
  - rewrite Z.add_0_r, Z.mod_small; [reflexivity | exact Hs].
  - destruct (uchar c =? 0) eqn:E; simpl.
    + rewrite Z.add_0_r, Z.mod_small; [reflexivity | exact Hs].
    + rewrite IH by (apply Z.mod_pos_bound; reflexivity).
      rewrite Zplus_mod_idemp_l. f_equal. lia.
Qed.

Lemma hash_soma p :
  hash p = (soma_bytes (cstr p) mod UINT_MOD) mod TAM_HASH.
Proof.
  unfold hash. rewrite hash_laco_soma by (unfold UINT_MOD; lia).
  reflexivity.
Qed.

Lemma hash_range p : 0 <= hash p < TAM_HASH.
Proof.
  unfold hash. apply Z.mod_pos_bound. reflexivity.
Qed.

Lemma soma_bytes_repetir n c :
  soma_bytes (repetir n c) = Z.of_nat n * uchar c.
Proof.
  induction n as [|n IH]; [reflexivity|].
  cbn [repetir soma_bytes]. rewrite IH. lia.
Qed.

Lemma cstr_repetir n c : uchar c <> 0 -> cstr (repetir n c) = repetir n c.
Proof.
  intros Hc. apply Z.eqb_neq in Hc.
  induction n as [|n IH]; [reflexivity|].
  cbn [repetir cstr]. now rewrite Hc, IH.
Qed.

(** C8 (as amended). For every input text, [hash] is the sum of the bytes of
    the text, reduced modulo 2^32 by the [unsigned int] accumulator, modulo
    the 11 buckets; it lies in [0, TAM_HASH), and two buffers holding the
    same text get the same bucket.  When the sum of the bytes is below 2^32
    (every text of less than 16 MiB) it is the sum modulo 11. *)
Theorem hash_soma_dos_bytes (p : string) :
  hash p = (soma_bytes (cstr p) mod UINT_MOD) mod TAM_HASH /\
  0 <= hash p < TAM_HASH /\
  (forall q, cstr q = cstr p -> hash q = hash p) /\
  (soma_bytes (cstr p) < UINT_MOD ->
   hash p = soma_bytes (cstr p) mod TAM_HASH).
Proof.
  split; [apply hash_soma|].
  split; [apply hash_range|].
  split.
  - intros q Hq. rewrite !hash_soma, Hq. reflexivity.
  - intros Hlt. rewrite hash_soma, (Z.mod_small _ UINT_MOD); [reflexivity|].
    split; [apply soma_bytes_nonneg | exact Hlt].
Qed.

Lemma hash_soma_dos_bytes_witness :
  soma_bytes (cstr "Pegadas de lama recentes") < UINT_MOD /\
  hash "Pegadas de lama recentes"
  = soma_bytes (cstr "Pegadas de lama recentes") mod TAM_HASH.
Proof.
  assert (H : soma_bytes (cstr "Pegadas de lama recentes") < UINT_MOD)
    by (vm_compute; reflexivity).
  split; [exact H|].
  apply (hash_soma_dos_bytes "Pegadas de lama recentes"). exact H.
Defined.

(** Counterexample to C8 as stated: on 16843010 bytes 0xFF the accumulator
    has wrapped around and the bucket is 1, while the sum of the bytes
    modulo 11 is 5. *)
Lemma hash_texto_enorme :
  hash texto_enorme = 1 /\
  soma_bytes texto_enorme mod TAM_HASH = 5 /\
  hash texto_enorme <> soma_bytes texto_enorme mod TAM_HASH.
Proof.
  assert (Hs : soma_bytes texto_enorme = 16843010 * 255).
  { unfold texto_enorme. rewrite soma_bytes_repetir, N_nat_Z. reflexivity. }
  assert (Hc : cstr texto_enorme = texto_enorme).
  { unfold texto_enorme. apply cstr_repetir. discriminate. }
  assert (H1 : hash texto_enorme = 1).
  { rewrite hash_soma, Hc, Hs. reflexivity. }
  assert (H2 : soma_bytes texto_enorme mod TAM_HASH = 5).
  { rewrite Hs. reflexivity. }
  split; [exact H1|]. split; [exact H2|].
  rewrite H1, H2. discriminate.
Qed.

(** ** The suspect index *)

Lemma indice_na_tabela (t : Tabela) p :
  length t = Z.to_nat TAM_HASH -> (Z.to_nat (hash p) < length t)%nat.
Proof.
  intros ->. pose proof (hash_range p). unfold TAM_HASH in *. lia.
Qed.

Lemma inserirNaHash_length (t : Tabela) p s :
  length (inserirNaHash t p s) = length t.
Proof.
  destruct p as [p|], s as [s|]; simpl; try reflexivity.
  apply length_insert.
Qed.

Lemma tabela_ok_inicial : tabela_ok inicializarHash.
Proof.
  split; [apply length_replicate|].
  apply Forall_replicate. constructor.
Qed.

Lemma tabela_ok_inserir t p s :
  tabela_ok t -> tabela_ok (inserirNaHash t p s).
Proof.
  intros [Hl Hf]. split; [now rewrite inserirNaHash_length|].
  destruct p as [p|], s as [s|]; simpl; try exact Hf.
  apply Forall_insert; [exact Hf|].
  constructor; [split; apply strncpy_cabe|].
  apply (Forall_lookup_total_1 (Forall no_ok) t); [exact Hf|].
  apply indice_na_tabela, Hl.
Qed.

Lemma tabela_ok_inserirAssociacoes l t :
  tabela_ok t -> tabela_ok (inserirAssociacoes t l).
Proof.
  unfold inserirAssociacoes.
  revert t. induction l as [|a l IH]; intros t Ht; cbn [fold_left]; [exact Ht|].
  apply IH, tabela_ok_inserir, Ht.
Qed.

Lemma procurar_ausente cur p :
  Forall (fun n => cstr (sn_pista n) <> cstr p) cur ->
  procurar cur p = Desconhecido.
Proof.
  induction 1 as [|n cur Hn _ IH]; simpl; [reflexivity|].
  destruct (strcmp (sn_pista n) p =? 0) eqn:E; [|exact IH].
  apply Z.eqb_eq, strcmp_eq_cstr in E. contradiction.
Qed.

(** The result of a search in a chain: the sentinel, or the suspect of the
    first node whose key is the text sought. *)
Lemma procurar_resultado cur p :
  procurar cur p = Desconhecido \/
  exists n, n ∈ cur /\ cstr (sn_pista n) = cstr p /\
            procurar cur p = sn_suspeito n.
Proof.
  induction cur as [|n cur IH]; simpl; [now left|].
  destruct (strcmp (sn_pista n) p =? 0) eqn:E.
  - right. exists n. apply Z.eqb_eq, strcmp_eq_cstr in E.
    split; [apply list_elem_of_here | tauto].
  - destruct IH as [IH|(m & Hm & Hk & Hs)]; [now left|].
    right. exists m. split; [now apply list_elem_of_further | tauto].
Qed.

(** C6. For every table and every clue text that no node of the table has
    as its key, [encontrarSuspeito] returns the sentinel "Desconhecido".
    The function is total: on every table and text it returns either the
    sentinel or the suspect of a node of the bucket with that key. *)
Theorem encontrarSuspeito_ausente (t : Tabela) (p : string) :
  ausente t p ->
  encontrarSuspeito t (Some p) = Desconhecido /\
  (forall q, encontrarSuspeito t (Some q) = Desconhecido \/
             exists n, n ∈ t !!! Z.to_nat (hash q) /\
                       cstr (sn_pista n) = cstr q /\
                       encontrarSuspeito t (Some q) = sn_suspeito n).
Proof.
  intros Ha. split; [|intros q; apply procurar_resultado].
  unfold encontrarSuspeito. apply procurar_ausente.
  rewrite list_lookup_total_alt.
  destruct (t !! Z.to_nat (hash p)) as [b|] eqn:E; simpl.
  - unfold ausente in Ha. eapply Forall_lookup_1 in Ha; eassumption.
  - constructor.
Qed.

Lemma encontrarSuspeito_ausente_witness :
  ausente tabela_da_mansao "Faca de cozinha" /\
  encontrarSuspeito tabela_da_mansao (Some "Faca de cozinha") = Desconhecido.
Proof.
  assert (H : ausente tabela_da_mansao "Faca de cozinha").
  { vm_compute. repeat (constructor; try discriminate). }
  split; [exact H|].
  apply (encontrarSuspeito_ausente tabela_da_mansao "Faca de cozinha" H).
Defined.

(** C10. With a NULL clue text or a NULL suspect name [inserirNaHash]
    leaves the table as it is, and with a NULL clue text
    [encontrarSuspeito] returns the sentinel. *)
Theorem ponteiros_nulos (t : Tabela) (p s : option string) :
  inserirNaHash t None s = t /\
  inserirNaHash t p None = t /\
  encontrarSuspeito t None = Desconhecido.
Proof.
  split; [reflexivity|]. split; [|reflexivity].
  destruct p; reflexivity.
Qed.

Lemma procurar_recente p s cur :
  (String.length (cstr p) <= MAX_PISTA - 1)%nat ->
  procurar (MkSuspeito (strncpy (MAX_PISTA - 1) p) s :: cur) p = s.
Proof.
  intros Hl. cbn [procurar sn_pista sn_suspeito].
  rewrite strncpy_curta by exact Hl.
  rewrite strcmp_cstr_l, strcmp_refl. reflexivity.
Qed.

Lemma casa_strcmp k q :
  strncpy (MAX_PISTA - 1) k = cstr q <->
  strcmp (strncpy (MAX_PISTA - 1) k) q = 0.
Proof.
  rewrite strcmp_eq_cstr, strncpy_cstr. reflexivity.
Qed.

(** A search that the new association does not answer finds what it found
    before the insertion. *)
Lemma inserirNaHash_outra (t : Tabela) k s q :
  casa k q = false ->
  encontrarSuspeito (inserirNaHash t (Some k) (Some s)) (Some q)
  = encontrarSuspeito t (Some q).
Proof.
  intros Hc. unfold encontrarSuspeito, inserirNaHash.
  rewrite list_lookup_total_insert. case_decide as Hd; [|reflexivity].
  destruct Hd as [Hi _]. rewrite <- Hi. cbn [procurar sn_pista sn_suspeito].
  unfold casa in Hc. apply andb_false_iff in Hc as [Hc|Hc].
  - apply Z.eqb_neq in Hc. pose proof (hash_range k). pose proof (hash_range q).
    apply Z2Nat.inj in Hi; lia.
  - apply bool_decide_eq_false in Hc. rewrite casa_strcmp in Hc.
    apply Z.eqb_neq in Hc. now rewrite Hc.
Qed.

Lemma strncpy_texto_longo n p :
  (n < String.length (cstr p))%nat -> strncpy n p <> cstr p.
Proof.
  intros Hl E. pose proof (strncpy_length n p) as H. rewrite E in H. lia.
Qed.

(** C5 (as amended). On a table of [TAM_HASH] buckets, an insertion of a
    clue text of any length puts a new node, holding the first 127 bytes of
    the clue text and the first 63 bytes of the suspect name, at the head
    of the chain of bucket [hash(pista)] and leaves the other buckets
    alone; after two insertions of one clue text both nodes are in the
    chain, the later first.  When the clue text is at most 127 bytes long,
    looking it up returns the suspect stored by the later insertion; a
    longer clue text is not the key its nodes hold, and looking it up
    returns what the table returned before the insertions. *)
Theorem inserirNaHash_na_cabeca (t : Tabela) (p s1 s2 : string) :
  length t = Z.to_nat TAM_HASH ->
  let idx := Z.to_nat (hash p) in
  let no1 := MkSuspeito (strncpy (MAX_PISTA - 1) p) (strncpy (MAX_NOME - 1) s1) in
  let no2 := MkSuspeito (strncpy (MAX_PISTA - 1) p) (strncpy (MAX_NOME - 1) s2) in
  let t1 := inserirNaHash t (Some p) (Some s1) in
  let t2 := inserirNaHash t1 (Some p) (Some s2) in
  t1 !!! idx = no1 :: t !!! idx /\
  (forall j, j <> idx -> t1 !!! j = t !!! j) /\
  length t1 = length t /\
  t2 !!! idx = no2 :: no1 :: t !!! idx /\
  (forall j, j <> idx -> t2 !!! j = t !!! j) /\
  ((String.length (cstr p) <= MAX_PISTA - 1)%nat ->
   encontrarSuspeito t1 (Some p) = strncpy (MAX_NOME - 1) s1 /\
   encontrarSuspeito t2 (Some p) = strncpy (MAX_NOME - 1) s2) /\
  ((MAX_PISTA - 1 < String.length (cstr p))%nat ->
   encontrarSuspeito t1 (Some p) = encontrarSuspeito t (Some p) /\
   encontrarSuspeito t2 (Some p) = encontrarSuspeito t (Some p)).
Proof.
  intros Hlen idx no1 no2 t1 t2.
  assert (Hi : (idx < length t)%nat) by (apply indice_na_tabela, Hlen).
  assert (H1 : t1 !!! idx = no1 :: t !!! idx).
  { unfold t1, inserirNaHash. fold idx. fold no1.
    now apply list_lookup_total_insert_eq. }
  assert (Hl1 : length t1 = length t) by apply inserirNaHash_length.
  assert (H2 : t2 !!! idx = no2 :: no1 :: t !!! idx).
  { unfold t2, inserirNaHash. fold idx. fold no2.
    rewrite list_lookup_total_insert_eq by lia. now rewrite H1. }
  assert (Ho1 : forall j, j <> idx -> t1 !!! j = t !!! j).
  { intros j Hj. unfold t1, inserirNaHash. fold idx.
    apply list_lookup_total_insert_ne. congruence. }
  split; [exact H1|]. split; [exact Ho1|]. split; [exact Hl1|].
  split; [exact H2|]. split; [|split].
  - intros j Hj. rewrite <- (Ho1 j Hj). unfold t2, inserirNaHash. fold idx.
    apply list_lookup_total_insert_ne. congruence.
  - intros Hp. split.
    + unfold encontrarSuspeito. fold idx. rewrite H1.
      apply procurar_recente, Hp.
    + unfold encontrarSuspeito. fold idx. rewrite H2.
      apply procurar_recente, Hp.
  - intros Hp.
    assert (Hc : casa p p = false).
    { unfold casa. apply andb_false_iff. right.
      apply bool_decide_eq_false. now apply strncpy_texto_longo. }
    assert (E1 : encontrarSuspeito t1 (Some p) = encontrarSuspeito t (Some p))
      by (unfold t1; now apply inserirNaHash_outra).
    split; [exact E1|]. rewrite <- E1. unfold t2.
    now apply inserirNaHash_outra.
Qed.

Lemma inserirNaHash_na_cabeca_witness :
  length inicializarHash = Z.to_nat TAM_HASH /\
  (String.length (cstr "Pegadas de lama recentes") <= MAX_PISTA - 1)%nat /\
  encontrarSuspeito
    (inserirNaHash
       (inserirNaHash inicializarHash (Some "Pegadas de lama recentes")
                      (Some "Jardineiro"))
       (Some "Pegadas de lama recentes") (Some "Governanta"))
    (Some "Pegadas de lama recentes")
  = strncpy (MAX_NOME - 1) "Governanta" /\
  (MAX_PISTA - 1 < String.length (cstr texto_longo))%nat /\
  inserirNaHash inicializarHash (Some texto_longo) (Some "Jardineiro")
    !!! Z.to_nat (hash texto_longo)
  = [MkSuspeito (strncpy (MAX_PISTA - 1) texto_longo)
                (strncpy (MAX_NOME - 1) "Jardineiro")].
Proof.
  assert (H1 : length inicializarHash = Z.to_nat TAM_HASH) by reflexivity.
  assert (H2 : (String.length (cstr "Pegadas de lama recentes")
                <= MAX_PISTA - 1)%nat) by (vm_compute; lia).
  assert (H3 : (MAX_PISTA - 1 < String.length (cstr texto_longo))%nat)
    by (vm_compute; lia).
  split; [exact H1|]. split; [exact H2|]. split; [|split; [exact H3|]].
  - apply (inserirNaHash_na_cabeca inicializarHash "Pegadas de lama recentes"
             "Jardineiro" "Governanta" H1). exact H2.
  - apply (inserirNaHash_na_cabeca inicializarHash texto_longo
             "Jardineiro" "Governanta" H1).
Defined.

(** Counterexample to C5 as stated: a clue text of 128 bytes is stored cut
    to 127 bytes, so looking up the very text inserted finds no node and
    returns the sentinel, not a suspect inserted for it. *)
Lemma inserirNaHash_texto_longo :
  let t2 := inserirNaHash
              (inserirNaHash inicializarHash (Some texto_longo)
                             (Some "Jardineiro"))
              (Some texto_longo) (Some "Governanta") in
  encontrarSuspeito t2 (Some texto_longo) = Desconhecido /\
  encontrarSuspeito t2 (Some texto_longo) <> "Governanta".
Proof.
  assert (E : encontrarSuspeito
                (inserirNaHash
                   (inserirNaHash inicializarHash (Some texto_longo)
                                  (Some "Jardineiro"))
                   (Some texto_longo) (Some "Governanta"))
                (Some texto_longo) = Desconhecido)
    by (vm_compute; reflexivity).
  cbv zeta. rewrite E. split; [reflexivity | discriminate].
Qed.

(** ** The accusation *)

Lemma encontrarSuspeito_cstr (t : Tabela) q :
  tabela_ok t -> cstr (encontrarSuspeito t q) = encontrarSuspeito t q.
Proof.
  intros [_ Hf]. destruct q as [p|]; [|reflexivity].
  unfold encontrarSuspeito.
  destruct (procurar_resultado (t !!! Z.to_nat (hash p)) p)
    as [E|(n & Hn & _ & E)]; rewrite E; [reflexivity|].
  rewrite list_lookup_total_alt in Hn.
  destruct (t !! Z.to_nat (hash p)) as [b|] eqn:Eb; simpl in Hn.
  - eapply Forall_lookup_1 in Hf; [|exact Eb].
    rewrite Forall_forall in Hf. apply Hf in Hn. apply Hn.
  - now apply elem_of_nil in Hn.
Qed.

Lemma contadorRec_conta (t : Tabela) s raiz :
  tabela_ok t ->
  contadorRec t s raiz
  = Z.of_nat (length (pistas_contra t (cstr s) (em_ordem raiz))).
Proof.
  intros Ht. unfold pistas_contra.
  induction raiz as [|k e IHe d IHd]; [reflexivity|].
  cbn [contadorRec em_ordem]. rewrite IHe, IHd.
  rewrite filter_app, length_app, filter_cons.
  destruct (strcmp (encontrarSuspeito t (Some k)) s =? 0) eqn:E.
  - apply Z.eqb_eq, strcmp_eq_cstr in E.
    rewrite encontrarSuspeito_cstr in E by exact Ht.
    rewrite decide_True by exact E. cbn [length]. lia.
  - apply Z.eqb_neq in E. rewrite strcmp_eq_cstr in E.
    rewrite encontrarSuspeito_cstr in E by exact Ht.
    rewrite decide_False by exact E. lia.
Qed.

Lemma contarPistasPorSuspeitoNaBST_conta (t : Tabela) raiz s :
  tabela_ok t ->
  contarPistasPorSuspeitoNaBST t raiz s
  = Z.of_nat (length (pistas_contra t (cstr s) (em_ordem raiz))).
Proof.
  intros Ht. destruct raiz; [reflexivity|].
  apply contadorRec_conta, Ht.
Qed.

(** The counter fits an [int] as long as the number of nodes does. *)
Lemma contadorRec_limites (t : Tabela) s raiz :
  0 <= contadorRec t s raiz <= Z.of_nat (length (em_ordem raiz)).
Proof.
  induction raiz as [|k e IHe d IHd]; cbn [contadorRec em_ordem]; [simpl; lia|].
  rewrite length_app. cbn [length].
  destruct (strcmp (encontrarSuspeito t (Some k)) s =? 0); lia.
Qed.

(** The count does not depend on the order of enumeration. *)
Lemma pistas_contra_ordem (t : Tabela) s l1 l2 :
  l1 ≡ₚ l2 -> length (pistas_contra t s l1) = length (pistas_contra t s l2).
Proof.
  intros H. unfold pistas_contra. now rewrite H.
Qed.

Lemma classificar_contagem (n : nat) :
  classificar (Z.of_nat n)
  = match n with
    | O => SemFundamento
    | S O => Fragil
    | S (S _) => Confirmada
    end.
Proof.
  unfold classificar. destruct n as [|[|n]]; try reflexivity.
  destruct (Z.of_nat (S (S n)) >=? 2) eqn:E; [reflexivity|].
  rewrite Z.geb_leb in E. apply Z.leb_gt in E. lia.
Qed.

(** C1. For every table with well-formed nodes, every clue store and every
    accused name read from the console, the verdict written is decided by
    the number of clues of the store that [encontrarSuspeito] maps to
    exactly that name, a number that is the same for every order of
    enumeration: with 2 or more the line "Acusação confirmada!" is written,
    with 1 the lines of "Acusação frágil", with 0 the line "Acusação sem
    fundamento", each between the heading of the phase and the summary and
    with the name and the number in it. *)
Theorem veredito_pela_contagem (t : Tabela) (raiz : PistaNode)
    (stdin : list ascii) (nome : string) :
  tabela_ok t ->
  nome_acusado stdin = Some nome ->
  nome <> EmptyString ->
  let n := length (pistas_contra t nome (em_ordem raiz)) in
  let j := verificarSuspeitoFinal t raiz stdin in
  (forall l, l ≡ₚ em_ordem raiz -> length (pistas_contra t nome l) = n) /\
  contarPistasPorSuspeitoNaBST t raiz nome = Z.of_nat n /\
  ((2 <= n)%nat ->
   jg_veredito j = Some Confirmada /\
   jg_saida j
   = cabecalho_acusacao
     ++ [Txt (nl +:+ "✅ Acusação confirmada! '" +:+ nome
              +:+ "' é considerado culpado (evidências: "
              +:+ pretty (Z.of_nat n) +:+ " pistas)." +:+ nl)]
     ++ resumo t raiz) /\
  (n = 1%nat ->
   jg_veredito j = Some Fragil /\
   jg_saida j
   = cabecalho_acusacao
     ++ [Txt (nl +:+ "⚠️ Acusação frágil: '" +:+ nome +:+ "' tem somente "
              +:+ pretty (Z.of_nat n)
              +:+ " pista(s) coletada(s) relacionada(s)." +:+ nl);
         Txt ("São necessárias ao menos 2 pistas para confirmação." +:+ nl)]
     ++ resumo t raiz) /\
  (n = 0%nat ->
   jg_veredito j = Some SemFundamento /\
   jg_saida j
   = cabecalho_acusacao
     ++ [Txt (nl +:+ "❌ Acusação sem fundamento: nenhuma pista coletada aponta para '"
              +:+ nome +:+ "'." +:+ nl)]
     ++ resumo t raiz).
Proof.
  intros Ht Hnome Hne n j.
  split; [intros l Hl; now apply pistas_contra_ordem|].
  assert (Hc : cstr nome = nome).
  { unfold nome_acusado in Hnome.
    destruct (fgets MAX_NOME stdin) as [[buf resto]|]; [|discriminate].
    injection Hnome as <-. apply cstr_idem. }
  split.
  { rewrite contarPistasPorSuspeitoNaBST_conta by exact Ht. now rewrite Hc. }
  assert (Hj : exists buf,
             cstr buf = nome /\
             jg_veredito j = Some (classificar (Z.of_nat n)) /\
             jg_saida j
             = cabecalho_acusacao
               ++ msg_veredito (classificar (Z.of_nat n)) buf (Z.of_nat n)
               ++ resumo t raiz).
  { unfold j, verificarSuspeitoFinal. unfold nome_acusado in Hnome.
    destruct (fgets MAX_NOME stdin) as [[buf resto]|]; [|discriminate].
    injection Hnome as Hnome.
    exists (por_NUL buf (strcspn buf nl)). split; [exact Hnome|].
    destruct (vazia (por_NUL buf (strcspn buf nl))) eqn:Ev.
    - apply vazia_cstr in Ev. congruence.
    - cbn [jg_veredito jg_saida].
      rewrite contarPistasPorSuspeitoNaBST_conta by exact Ht.
      rewrite Hnome. split; reflexivity. }
  destruct Hj as (buf & Hb & Hv & Hs).
  rewrite Hv, Hs, classificar_contagem.
  split; [|split]; intros Hn; destruct n as [|[|n']]; try lia;
    cbn [msg_veredito]; rewrite Hb; split; reflexivity.
Qed.

Lemma veredito_pela_contagem_witness :
  tabela_ok tabela_da_mansao /\
  nome_acusado (digitar ("Jardineiro" +:+ nl)) = Some "Jardineiro" /\
  "Jardineiro" <> EmptyString /\
  jg_veredito (verificarSuspeitoFinal tabela_da_mansao pistas_do_jardineiro
                 (digitar ("Jardineiro" +:+ nl)))
  = Some Confirmada /\
  Txt (nl +:+ "✅ Acusação confirmada! 'Jardineiro' é considerado culpado (evidências: 2 pistas)." +:+ nl)
  ∈ jg_saida (verificarSuspeitoFinal tabela_da_mansao pistas_do_jardineiro
                (digitar ("Jardineiro" +:+ nl))).
Proof.
  assert (H1 : tabela_ok tabela_da_mansao)
    by (apply tabela_ok_inserirAssociacoes, tabela_ok_inicial).
  assert (H2 : nome_acusado (digitar ("Jardineiro" +:+ nl)) = Some "Jardineiro")
    by (vm_compute; reflexivity).
  assert (H3 : "Jardineiro" <> EmptyString) by discriminate.
  split; [exact H1|]. split; [exact H2|]. split; [exact H3|].
  destruct (veredito_pela_contagem tabela_da_mansao pistas_do_jardineiro
              (digitar ("Jardineiro" +:+ nl)) "Jardineiro" H1 H2 H3)
    as (_ & _ & Hconf & _).
  destruct Hconf as [Hv Hs]; [vm_compute; lia|].
  split; [exact Hv|]. rewrite Hs.
  apply elem_of_app. right. apply elem_of_app. left.
  apply list_elem_of_here.
Defined.

(** The example of the specification: with the two clues of the gardener
    collected, accusing "Jardineiro" is confirmed with 2 clues and accusing
    "Governanta" is unfounded. *)
Example acusacao_do_jardineiro :
  contarPistasPorSuspeitoNaBST tabela_da_mansao pistas_do_jardineiro
    "Jardineiro" = 2 /\
  jg_veredito (verificarSuspeitoFinal tabela_da_mansao pistas_do_jardineiro
                 (digitar ("Jardineiro" +:+ nl))) = Some Confirmada /\
  contarPistasPorSuspeitoNaBST tabela_da_mansao pistas_do_jardineiro
    "Governanta" = 0 /\
  jg_veredito (verificarSuspeitoFinal tabela_da_mansao pistas_do_jardineiro
                 (digitar ("Governanta" +:+ nl))) = Some SemFundamento.
Proof. vm_compute. repeat split. Qed.

(** An empty line gives an empty name. *)
Lemma nome_acusado_linha_vazia resto :
  nome_acusado (LF :: resto) = Some EmptyString.
Proof. reflexivity. Qed.

(** C4 (as amended). For every accusation input, [verificarSuspeitoFinal]
    leaves the table and the clue store as they were; when the name read is
    empty (an empty line) the accusation is aborted without a verdict, with
    the message "Nenhum nome informado. Acusação abortada.", which is none
    of the three verdicts; every other name, white space included, gets the
    verdict of its count. *)
Theorem acusacao_sem_nome (t : Tabela) (raiz : PistaNode)
    (stdin : list ascii) (nome : string) :
  nome_acusado stdin = Some nome ->
  let j := verificarSuspeitoFinal t raiz stdin in
  jg_tabela j = t /\ jg_pistas j = raiz /\
  (nome = EmptyString ->
   jg_veredito j = None /\
   jg_saida j = cabecalho_acusacao ++ [msg_abortada] /\
   forall v total, msg_abortada ∉ msg_veredito v nome total) /\
  (nome <> EmptyString ->
   exists buf,
     cstr buf = nome /\
     jg_veredito j
     = Some (classificar (contarPistasPorSuspeitoNaBST t raiz buf))).
Proof.
  intros Hnome j. unfold j, verificarSuspeitoFinal.
  unfold nome_acusado in Hnome.
  destruct (fgets MAX_NOME stdin) as [[buf resto]|]; [|discriminate].
  injection Hnome as Hnome.
  destruct (vazia (por_NUL buf (strcspn buf nl))) eqn:Ev;
    cbn [jg_tabela jg_pistas jg_veredito jg_saida];
    (split; [reflexivity|]); (split; [reflexivity|]).
  - split; [|apply vazia_cstr in Ev; congruence].
    intros _. split; [reflexivity|]. split; [reflexivity|].
    intros v total Hin. destruct v; cbn [msg_veredito] in Hin;
      repeat (apply elem_of_cons in Hin as [Hin|Hin]; [discriminate Hin|]);
      now apply elem_of_nil in Hin.
  - split.
    + intros ->. apply vazia_cstr in Hnome. congruence.
    + intros _. eexists. split; [exact Hnome | reflexivity].
Qed.

Lemma acusacao_sem_nome_witness :
  nome_acusado [LF] = Some EmptyString /\
  jg_veredito (verificarSuspeitoFinal tabela_da_mansao pistas_do_jardineiro [LF])
  = None.
Proof.
  assert (H : nome_acusado [LF] = Some EmptyString) by reflexivity.
  split; [exact H|].
  apply (acusacao_sem_nome tabela_da_mansao pistas_do_jardineiro [LF]
           EmptyString H).
  reflexivity.
Defined.

(** Counterexample to C4 as stated: a name of three blanks is not aborted;
    it is counted and declared unfounded. *)
Lemma acusacao_em_branco :
  nome_acusado (digitar ("   " +:+ nl)) = Some "   " /\
  jg_veredito (verificarSuspeitoFinal tabela_da_mansao pistas_do_jardineiro
                 (digitar ("   " +:+ nl)))
  = Some SemFundamento /\
  jg_veredito (verificarSuspeitoFinal tabela_da_mansao pistas_do_jardineiro
                 (digitar ("   " +:+ nl)))
  <> None.
Proof.
  split; [vm_compute; reflexivity|].
  assert (E : jg_veredito
                (verificarSuspeitoFinal tabela_da_mansao pistas_do_jardineiro
                   (digitar ("   " +:+ nl))) = Some SemFundamento)
    by (vm_compute; reflexivity).
  split; [exact E | rewrite E; discriminate].
Qed.

(** ** The exploration loops *)

Lemma scanf_c_length stdin opcao resto :
  scanf_c stdin = Some (opcao, resto) -> (length resto < length stdin)%nat.
Proof.
  induction stdin as [|c r IH]; simpl; [discriminate|].
  destruct (isspace c).
  - intros H. apply IH in H. lia.
  - intros H. injection H as _ <-. lia.
Qed.

Lemma limparBufferEntrada_length stdin :
  (length (limparBufferEntrada stdin) <= length stdin)%nat.
Proof.
  induction stdin as [|c r IH]; simpl; [lia|].
  destruct (uchar c =? uchar LF); lia.
Qed.

(** A turn that goes on has consumed input. *)
Lemma explorarMansao_corpo_consome c c' :
  explorarMansao_corpo c = Continua c' ->
  (length (entrada c') < length (entrada c))%nat.
Proof.
  unfold explorarMansao_corpo.
  destruct (scanf_c (entrada c)) as [[opcao resto]|] eqn:E; [|discriminate].
  apply scanf_c_length in E.
  pose proof (limparBufferEntrada_length resto).
  pose proof (limparBufferEntrada_length (limparBufferEntrada resto)).
  destruct (eh opcao "e" "E"); [|destruct (eh opcao "d" "D");
                                  [|destruct (eh opcao "s" "S")]];
    try destruct (sala_esquerda (atual c)); try destruct (sala_direita (atual c));
    intros Hc; try discriminate; injection Hc as <-; cbn [entrada]; lia.
Qed.

(** The turns [explorarMansao] allows are never all used: the loop is left
    or comes to a read that finds the input exhausted. *)
Lemma explorarMansao_laco_suficiente n c :
  (length (entrada c) < n)%nat ->
  exists c', explorarMansao_laco n c = Terminou c' \/
             explorarMansao_laco n c = Aguardando c'.
Proof.
  revert c. induction n as [|n IH]; intros c Hn; [lia|].
  cbn [explorarMansao_laco].
  destruct (explorarMansao_corpo c) as [c'|c'|c'] eqn:E.
  - apply IH. apply explorarMansao_corpo_consome in E. lia.
  - exists c'. now left.
  - exists c'. now right.
Qed.

Lemma explorarMansao_total s raiz (t : Tabela) stdin stdout :
  exists c', explorarMansao (Some s) raiz t stdin stdout = inl (Terminou c') \/
             explorarMansao (Some s) raiz t stdin stdout = inl (Aguardando c').
Proof.
  unfold explorarMansao.
  destruct (explorarMansao_laco_suficiente (S (length stdin))
              (MkConfig s raiz stdin stdout)) as [c' [H|H]];
    [cbn [entrada]; lia | exists c'; left | exists c'; right]; now rewrite H.
Qed.

Lemma explorarSalas_corpo_consome c c' :
  Novato.explorarSalas_corpo c = Continua c' ->
  (length (Novato.entrada c') < length (Novato.entrada c))%nat.
Proof.
  unfold Novato.explorarSalas_corpo.
  destruct (scanf_c (Novato.entrada c)) as [[opcao resto]|] eqn:E.
  - apply scanf_c_length in E.
    pose proof (limparBufferEntrada_length resto).
    destruct (Novato.sala_esquerda (Novato.atual c));
      destruct (Novato.sala_direita (Novato.atual c));
      destruct (eh opcao "e" "E"); destruct (eh opcao "d" "D");
      destruct (eh opcao "s" "S");
      intros Hc; try discriminate; injection Hc as <-;
      cbn [Novato.entrada]; lia.
  - destruct (Novato.sala_esquerda (Novato.atual c));
      destruct (Novato.sala_direita (Novato.atual c)); discriminate.
Qed.

Lemma explorarSalas_laco_suficiente n c :
  (length (Novato.entrada c) < n)%nat ->
  exists c', Novato.explorarSalas_laco n c = Terminou c' \/
             Novato.explorarSalas_laco n c = Aguardando c'.
Proof.
  revert c. induction n as [|n IH]; intros c Hn; [lia|].
  cbn [Novato.explorarSalas_laco].
  destruct (Novato.explorarSalas_corpo c) as [c'|c'|c'] eqn:E.
  - apply IH. apply explorarSalas_corpo_consome in E. lia.
  - exists c'. now left.
  - exists c'. now right.
Qed.

Lemma coletar_armazem_ok s raiz :
  armazem_ok raiz -> armazem_ok (coletar s raiz).
Proof.
  intros H. unfold coletar.
  destruct (negb (vazia (sala_pista s))); [apply armazem_ok_inserir|]; exact H.
Qed.

(** A second visit of a room collects nothing new. *)
Lemma coletar_idempotente s raiz :
  armazem_ok raiz -> sala_ok s ->
  coletar s (coletar s raiz) = coletar s raiz.
Proof.
  intros Hr [_ [Hc Hl]]. unfold coletar.
  destruct (negb (vazia (sala_pista s))); [|reflexivity].
  apply inserirPista_idempotente; [exact Hr|]. now rewrite Hc.
Qed.

Lemma criarSala_ok nome pista : sala_ok (criarSala nome pista).
Proof.
  split; cbn [criarSala sala_nome sala_pista]; [apply strncpy_cabe|].
  destruct pista as [p|]; [destruct (vazia p)|];
    try apply strncpy_cabe; split; cbn; try reflexivity; lia.
Qed.

Lemma eh_encerrar opcao :
  eh opcao "s" "S" = true ->
  eh opcao "e" "E" = false /\ eh opcao "d" "D" = false.
Proof.
  unfold eh. remember (uchar opcao) as u eqn:Eu. clear Eu. vm_compute.
  destruct u as [|u|u]; try discriminate.
  do 7 (destruct u as [u|u|]; try discriminate); auto.
Qed.

(** C3 (as amended). In the first program, [explorarSalas] arriving at a
    room without exits writes "Você chegou ao fim da exploração!" and
    returns without reading any input.  In [explorarMansao] there is no
    such exit: arriving at a room without exits collects its clue, shows
    the menu and reads an option; the exploration ends there on 's' or 'S'
    only, and any other option is answered with its invalid-input message
    ("Caminho inexistente à esquerda!" for e, "Caminho inexistente à
    direita!" for d, "Opção inválida!" for the rest), the player staying in
    the room and the loop going on. *)
Theorem chegada_a_uma_folha (sn : Novato.Sala) (s : Sala) :
  Novato.folha sn -> folha s ->
  (forall stdin stdout,
     Novato.explorarSalas sn stdin stdout
     = Terminou (Novato.MkConfig sn stdin
                   ((stdout ++ Novato.cabecalho sn) ++ [Novato.msg_fim]))) /\
  (forall raiz stdin stdout,
     let c := MkConfig s raiz stdin stdout in
     match scanf_c stdin with
     | None =>
         explorarMansao_corpo c
         = SemEntrada (MkConfig s (coletar s raiz) [] (stdout ++ tela s))
     | Some (opcao, resto) =>
         if eh opcao "s" "S" then
           explorarMansao_corpo c
           = Encerrado (MkConfig s (coletar s raiz) (limparBufferEntrada resto)
                          ((stdout ++ tela s) ++ [msg_encerrando]))
         else
           explorarMansao_corpo c
           = Continua (MkConfig s (coletar s raiz)
                         (limparBufferEntrada (limparBufferEntrada resto))
                         ((stdout ++ tela s)
                          ++ [if eh opcao "e" "E" then msg_sem_esquerda
                              else if eh opcao "d" "D" then msg_sem_direita
                              else msg_opcao_invalida]))
     end).
Proof.
  intros [Hne Hnd] [He Hd]. split.
  - intros stdin stdout. unfold Novato.explorarSalas.
    cbn [Novato.explorarSalas_laco]. unfold Novato.explorarSalas_corpo.
    cbn [Novato.atual Novato.entrada Novato.saida].
    rewrite Hne, Hnd. reflexivity.
  - intros raiz stdin stdout c. unfold c, explorarMansao_corpo.
    cbn [atual raizPistas entrada saida].
    destruct (scanf_c stdin) as [[opcao resto]|]; [|reflexivity].
    rewrite He, Hd.
    destruct (eh opcao "s" "S") eqn:Es.
    + destruct (eh_encerrar opcao Es) as [-> ->]. reflexivity.
    + destruct (eh opcao "e" "E"); [|destruct (eh opcao "d" "D")];
        reflexivity.
Qed.

Lemma chegada_a_uma_folha_witness :
  Novato.folha Novato.jardim /\ folha jardim /\
  Novato.explorarSalas Novato.jardim (digitar ("e" +:+ nl)) []
  = Terminou (Novato.MkConfig Novato.jardim (digitar ("e" +:+ nl))
                (([] ++ Novato.cabecalho Novato.jardim) ++ [Novato.msg_fim])).
Proof.
  assert (H1 : Novato.folha Novato.jardim) by (split; reflexivity).
  assert (H2 : folha jardim) by (split; reflexivity).
  split; [exact H1|]. split; [exact H2|].
  apply (chegada_a_uma_folha Novato.jardim jardim H1 H2).
Defined.

(** Counterexample to C3 as stated, on [explorarMansao]: in the garden, a
    room without exits, the option 'e' is read and answered with "Caminho
    inexistente à esquerda!", the player is still in the garden, and the
    exploration has not ended when the input runs out. *)
Lemma explorarMansao_continua_na_folha :
  folha jardim /\
  explorarMansao_corpo
    (MkConfig jardim PNULL (digitar ("e" +:+ nl +:+ nl)) [])
  = Continua (MkConfig jardim (coletar jardim PNULL) []
                (([] ++ tela jardim) ++ [msg_sem_esquerda])) /\
  (forall c, explorarMansao (Some jardim) PNULL tabela_da_mansao
               (digitar ("e" +:+ nl +:+ nl)) []
             <> inl (Terminou c)).
Proof.
  split; [split; reflexivity|].
  split; [vm_compute; reflexivity|].
  assert (H : exists c', explorarMansao (Some jardim) PNULL tabela_da_mansao
                           (digitar ("e" +:+ nl +:+ nl)) []
                         = inl (Aguardando c'))
    by (eexists; vm_compute; reflexivity).
  destruct H as [c' H]. intros c. rewrite H. discriminate.
Qed.

(** C9. For every room and every option that is not a way out of it (not
    one of e, d, s in either case, or e without a room to the left, or d
    without a room to the right), the turn writes one of the three
    invalid-input messages and goes on in the same room with the clue
    store it had when the option was read; the next turn collects nothing
    new and writes the screen and the menu of that room again. *)
Theorem opcao_invalida_sem_efeito (c : Config) (opcao : ascii)
    (resto : list ascii) :
  armazem_ok (raizPistas c) -> sala_ok (atual c) ->
  scanf_c (entrada c) = Some (opcao, resto) ->
  opcao_invalida (atual c) opcao ->
  let raiz := coletar (atual c) (raizPistas c) in
  exists aviso c',
    aviso ∈ [msg_sem_esquerda; msg_sem_direita; msg_opcao_invalida] /\
    explorarMansao_corpo c = Continua c' /\
    c' = MkConfig (atual c) raiz
           (limparBufferEntrada (limparBufferEntrada resto))
           ((saida c ++ tela (atual c)) ++ [aviso]) /\
    coletar (atual c) raiz = raiz /\
    raizPistas (config_de (explorarMansao_corpo c')) = raiz /\
    exists resposta,
      saida (config_de (explorarMansao_corpo c'))
      = (saida c' ++ tela (atual c)) ++ resposta.
Proof.
  intros Hr Hs Hscan Hinv raiz.
  assert (Hid : coletar (atual c) raiz = raiz)
    by (apply coletar_idempotente; assumption).
  assert (Hcorpo : exists aviso,
             aviso ∈ [msg_sem_esquerda; msg_sem_direita; msg_opcao_invalida] /\
             explorarMansao_corpo c
             = Continua (MkConfig (atual c) raiz
                           (limparBufferEntrada (limparBufferEntrada resto))
                           ((saida c ++ tela (atual c)) ++ [aviso]))).
  { unfold explorarMansao_corpo. rewrite Hscan. fold raiz.
    destruct Hinv as [[He Hn]|[(He & Hd & Hn)|(He & Hd & Hx)]].
    - rewrite He, Hn. exists msg_sem_esquerda.
      split; [apply list_elem_of_here | reflexivity].
    - rewrite He, Hd, Hn. exists msg_sem_direita.
      split; [apply list_elem_of_further, list_elem_of_here | reflexivity].
    - rewrite He, Hd, Hx. exists msg_opcao_invalida.
      split; [do 2 apply list_elem_of_further; apply list_elem_of_here
             | reflexivity]. }
  destruct Hcorpo as (aviso & Hav & Hcorpo).
  eexists aviso, _. split; [exact Hav|]. split; [exact Hcorpo|].
  split; [reflexivity|]. split; [exact Hid|].
  unfold explorarMansao_corpo. cbn [atual raizPistas entrada saida].
  rewrite Hid.
  destruct (scanf_c (limparBufferEntrada (limparBufferEntrada resto)))
    as [[o r]|]; cbn [config_de raizPistas saida].
  - destruct (eh o "e" "E"); [|destruct (eh o "d" "D");
                                [|destruct (eh o "s" "S")]];
      try destruct (sala_esquerda (atual c));
      try destruct (sala_direita (atual c));
      cbn [config_de raizPistas saida];
      (split; [reflexivity|]);
      first [ now eexists | exists []; now rewrite app_nil_r ].
  - split; [reflexivity|]. exists []. now rewrite app_nil_r.
Qed.

Lemma opcao_invalida_sem_efeito_witness :
  armazem_ok PNULL /\ sala_ok jardim /\
  scanf_c (digitar ("x" +:+ nl +:+ nl)) = Some ("x"%char, digitar (nl +:+ nl)) /\
  opcao_invalida jardim "x" /\
  exists aviso c',
    aviso ∈ [msg_sem_esquerda; msg_sem_direita; msg_opcao_invalida] /\
    explorarMansao_corpo (MkConfig jardim PNULL (digitar ("x" +:+ nl +:+ nl)) [])
    = Continua c'.
Proof.
  assert (H1 : armazem_ok PNULL) by apply armazem_ok_vazio.
  assert (H2 : sala_ok jardim) by apply criarSala_ok.
  assert (H3 : scanf_c (digitar ("x" +:+ nl +:+ nl))
               = Some ("x"%char, digitar (nl +:+ nl))) by reflexivity.
  assert (H4 : opcao_invalida jardim "x")
    by (right; right; repeat split; reflexivity).
  split; [exact H1|]. split; [exact H2|]. split; [exact H3|]. split; [exact H4|].
  destruct (opcao_invalida_sem_efeito
              (MkConfig jardim PNULL (digitar ("x" +:+ nl +:+ nl)) [])
              "x"%char (digitar (nl +:+ nl)) H1 H2 H3 H4)
    as (aviso & c' & Ha & Hc & _).
  exists aviso, c'. split; [exact Ha | exact Hc].
Defined.

(** The scenario of the specification on [explorarMansao]: left from the
    hall to the library, right to the garden, and, the garden being a room
    like any other for this loop, 's' to end; the store then holds the
    three clues of the path in ascending order. *)
Example exploracao_ate_o_jardim :
  exists c,
    explorarMansao (Some hall) PNULL tabela_da_mansao
      (digitar ("e" +:+ nl +:+ "d" +:+ nl +:+ "s" +:+ nl)) []
    = inl (Terminou c) /\
    sala_nome (atual c) = "Jardim" /\
    em_ordem (raizPistas c)
    = [ "Chave antiga caída entre as flores";
        "Pegadas de lama recentes";
        "Página arrancada de um diário" ].
Proof.
  eexists. split; [vm_compute; reflexivity|]. split; reflexivity.
Qed.

(** * Further properties of the code *)

(** ** More on the clue store *)

(** X1. Whatever is inserted (a text of any length, an empty text, NULL),
    a store that is a search tree with texts that fit their nodes stays
    one, and its enumeration stays ascending. *)
Theorem armazem_preservado (t : PistaNode) (p : option string) :
  armazem_ok t ->
  armazem_ok (inserirPista t p) /\
  StronglySorted ate (em_ordem (inserirPista t p)).
Proof.
  intros Ht.
  assert (H : armazem_ok (inserirPista t p)).
  { destruct p as [p|]; [apply armazem_ok_inserir, Ht|].
    destruct t; exact Ht. }
  split; [exact H | apply ordenada_ate, H].
Qed.

Lemma armazem_preservado_witness :
  armazem_ok (inserirTodas PNULL pistas_da_mansao) /\
  armazem_ok (inserirPista (inserirTodas PNULL pistas_da_mansao)
                           (Some texto_longo)).
Proof.
  assert (H : armazem_ok (inserirTodas PNULL pistas_da_mansao))
    by apply armazem_ok_inserirTodas, armazem_ok_vazio.
  split; [exact H|].
  apply (armazem_preservado (inserirTodas PNULL pistas_da_mansao)
           (Some texto_longo) H).
Defined.

(** X2. An insertion loses no text and adds at most one: the texts of the
    store afterwards are the texts before and, when the text inserted is
    not empty, its first [MAX_PISTA - 1] bytes; the number of nodes grows
    by one at most. *)
Theorem inserirPista_textos (t : PistaNode) (p : string) :
  chaves_ok t ->
  (forall x, x ∈ em_ordem (inserirPista t (Some p)) <->
             x ∈ em_ordem t \/
             (vazia p = false /\ x = strncpy (MAX_PISTA - 1) p)) /\
  (length (em_ordem t) <= length (em_ordem (inserirPista t (Some p)))
   <= S (length (em_ordem t)))%nat.
Proof.
  intros Hc. split; [intros x; now apply em_ordem_inserir_elem|].
  clear Hc. induction t as [|k e IHe d IHd]; cbn [inserirPista em_ordem].
  - destruct (vazia p); cbn; lia.
  - destruct (vazia p); [cbn [em_ordem]; lia|].
    destruct (strcmp p k <? 0); [|destruct (strcmp p k >? 0)];
      cbn [em_ordem]; rewrite !length_app; cbn [length]; lia.
Qed.

Lemma inserirPista_textos_witness :
  chaves_ok PNULL /\
  "Pegadas" ∈ em_ordem (inserirPista PNULL (Some "Pegadas")).
Proof.
  assert (H : chaves_ok PNULL) by constructor.
  split; [exact H|].
  apply (inserirPista_textos PNULL "Pegadas" H).
  right. split; reflexivity.
Defined.

(** X3. In a store built by the program, inserting twice a text of at most
    [MAX_PISTA - 1] bytes is inserting it once. *)
Theorem inserir_duas_vezes (t : PistaNode) (p : string) :
  armazem_ok t ->
  (String.length (cstr p) <= MAX_PISTA - 1)%nat ->
  inserirPista (inserirPista t (Some p)) (Some p) = inserirPista t (Some p).
Proof.
  apply inserirPista_idempotente.
Qed.

Lemma inserir_duas_vezes_witness :
  armazem_ok PNULL /\
  (String.length (cstr "Pegadas") <= MAX_PISTA - 1)%nat /\
  inserirPista (inserirPista PNULL (Some "Pegadas")) (Some "Pegadas")
  = inserirPista PNULL (Some "Pegadas").
Proof.
  assert (H1 : armazem_ok PNULL) by apply armazem_ok_vazio.
  assert (H2 : (String.length (cstr "Pegadas") <= MAX_PISTA - 1)%nat)
    by (vm_compute; lia).
  split; [exact H1|]. split; [exact H2|].
  apply (inserir_duas_vezes PNULL "Pegadas" H1 H2).
Defined.

Lemma abaixo_assimetrica a b : abaixo a b -> abaixo b a -> False.
Proof.
  unfold abaixo. rewrite (strcmp_antisym a b). lia.
Qed.

(** X4. The enumeration does not depend on the order of the insertions:
    two sequences of texts of at most [MAX_PISTA - 1] bytes that are
    permutations of each other give the same lines in [exibirPistas]. *)
Theorem enumeracao_independente_da_ordem (ps qs : list string) :
  Forall (fun p => (String.length (cstr p) <= MAX_PISTA - 1)%nat) ps ->
  ps ≡ₚ qs ->
  em_ordem (inserirTodas PNULL ps) = em_ordem (inserirTodas PNULL qs) /\
  exibirPistas (inserirTodas PNULL ps) = exibirPistas (inserirTodas PNULL qs).
Proof.
  intros Hps Hperm.
  assert (Hqs : Forall (fun p => (String.length (cstr p) <= MAX_PISTA - 1)%nat) qs)
    by now rewrite <- Hperm.
  destruct (abr_abaixo_inserirTodas ps PNULL Hps) as [Hc1 Ha1];
    [constructor | exact I |].
  destruct (abr_abaixo_inserirTodas qs PNULL Hqs) as [Hc2 Ha2];
    [constructor | exact I |].
  apply ordenada_abaixo in Ha1. apply ordenada_abaixo in Ha2.
  assert (E : em_ordem (inserirTodas PNULL ps) = em_ordem (inserirTodas PNULL qs)).
  { apply (StronglySorted_unique_strong abaixo); try assumption.
    - intros x1 x2 _ _ H1 H2. destruct (abaixo_assimetrica x1 x2 H1 H2).
    - apply NoDup_Permutation; try (apply ordenada_abaixo_NoDup; assumption).
      intros x. rewrite !em_ordem_inserirTodas_elem by constructor.
      cbn [em_ordem]. rewrite !elem_of_nil.
      split; intros [[]|(p & Hp & H)]; right; exists p; (split; [|exact H]);
        [now rewrite <- Hperm | now rewrite Hperm]. }
  split; [exact E|]. now rewrite !exibirPistas_em_ordem, E.
Qed.

Lemma enumeracao_independente_da_ordem_witness :
  Forall (fun p => (String.length (cstr p) <= MAX_PISTA - 1)%nat)
         pistas_da_mansao /\
  pistas_da_mansao ≡ₚ reverse pistas_da_mansao /\
  exibirPistas (inserirTodas PNULL pistas_da_mansao)
  = exibirPistas (inserirTodas PNULL (reverse pistas_da_mansao)).
Proof.
  assert (H1 : Forall (fun p => (String.length (cstr p) <= MAX_PISTA - 1)%nat)
                      pistas_da_mansao).
  { repeat (constructor; [vm_compute; lia|]). constructor. }
  assert (H2 : pistas_da_mansao ≡ₚ reverse pistas_da_mansao)
    by (symmetry; apply reverse_Permutation).
  split; [exact H1|]. split; [exact H2|].
  apply (enumeracao_independente_da_ordem pistas_da_mansao
           (reverse pistas_da_mansao) H1 H2).
Defined.

(** ** More on the suspect index *)

(** X5. The table [inicializarHash] gives and every table [inserirNaHash]
    returns, whatever the arguments, has its [TAM_HASH] buckets and nodes
    whose key is a C string of at most 127 bytes and whose suspect is one of
    at most 63 bytes; what a search returns on such a table is a C string
    of at most 63 bytes. *)
Theorem tabela_preservada (t : Tabela) (p s q : option string) :
  tabela_ok t ->
  tabela_ok (inserirNaHash t p s) /\
  cabe (MAX_NOME - 1) (encontrarSuspeito (inserirNaHash t p s) q).
Proof.
  intros Ht.
  assert (Ht' : tabela_ok (inserirNaHash t p s)) by apply tabela_ok_inserir, Ht.
  split; [exact Ht'|].
  split; [apply encontrarSuspeito_cstr, Ht'|].
  destruct q as [q|]; [|vm_compute; lia].
  unfold encontrarSuspeito.
  destruct (procurar_resultado
              (inserirNaHash t p s !!! Z.to_nat (hash q)) q)
    as [E|(n & Hn & _ & E)]; rewrite E; [vm_compute; lia|].
  destruct Ht' as [_ Hf].
  rewrite list_lookup_total_alt in Hn.
  destruct (inserirNaHash t p s !! Z.to_nat (hash q)) as [b|] eqn:Eb;
    simpl in Hn; [|now apply elem_of_nil in Hn].
  eapply Forall_lookup_1 in Hf; [|exact Eb].
  rewrite Forall_forall in Hf. apply Hf in Hn. apply Hn.
Qed.

Lemma tabela_preservada_witness :
  tabela_ok inicializarHash /\
  tabela_ok (inserirNaHash inicializarHash (Some texto_longo)
                           (Some texto_longo)).
Proof.
  assert (H : tabela_ok inicializarHash) by apply tabela_ok_inicial.
  split; [exact H|].
  apply (tabela_preservada inicializarHash (Some texto_longo)
           (Some texto_longo) None H).
Defined.

(** A search that the new association answers finds its suspect. *)
Lemma inserirNaHash_esta (t : Tabela) k s q :
  length t = Z.to_nat TAM_HASH ->
  casa k q = true ->
  encontrarSuspeito (inserirNaHash t (Some k) (Some s)) (Some q)
  = strncpy (MAX_NOME - 1) s.
Proof.
  intros Hl Hc. unfold casa in Hc. apply andb_true_iff in Hc as [Hh Hc].
  apply Z.eqb_eq in Hh. apply bool_decide_eq_true in Hc.
  unfold encontrarSuspeito, inserirNaHash. rewrite <- Hh.
  rewrite list_lookup_total_insert_eq by (apply indice_na_tabela, Hl).
  cbn [procurar sn_pista sn_suspeito].
  apply casa_strcmp in Hc. now rewrite Hc.
Qed.

(** X6. An insertion changes the answer for its own key only: on any table,
    after the insertion of an association for [p], the search for a text
    that is not the stored key (the first 127 bytes of [p]) returns what it
    returned before. *)
Theorem inserirNaHash_outras_chaves (t : Tabela) (p s q : string) :
  strncpy (MAX_PISTA - 1) p <> cstr q ->
  encontrarSuspeito (inserirNaHash t (Some p) (Some s)) (Some q)
  = encontrarSuspeito t (Some q).
Proof.
  intros Hne. apply inserirNaHash_outra. unfold casa.
  apply andb_false_iff. right. now apply bool_decide_eq_false.
Qed.

Lemma inserirNaHash_outras_chaves_witness :
  strncpy (MAX_PISTA - 1) "Pegadas de lama recentes"
  <> cstr "Chave antiga caída entre as flores" /\
  encontrarSuspeito
    (inserirNaHash tabela_da_mansao (Some "Pegadas de lama recentes")
                   (Some "Governanta"))
    (Some "Chave antiga caída entre as flores")
  = encontrarSuspeito tabela_da_mansao
      (Some "Chave antiga caída entre as flores").
Proof.
  assert (H : strncpy (MAX_PISTA - 1) "Pegadas de lama recentes"
              <> cstr "Chave antiga caída entre as flores")
    by (vm_compute; discriminate).
  split; [exact H|].
  apply (inserirNaHash_outras_chaves tabela_da_mansao
           "Pegadas de lama recentes" "Governanta"
           "Chave antiga caída entre as flores" H).
Defined.

(** X7. The table is a list of associations in which the last one wins:
    after any sequence of insertions into a table of [TAM_HASH] buckets,
    the search for a text returns the stored suspect (first 63 bytes) of
    the last association inserted that answers it, and what the search
    returned on the table before the insertions when none does. *)
Theorem encontrarSuspeito_ultima_associacao (t : Tabela)
    (l : list (string * string)) (q : string) :
  length t = Z.to_nat TAM_HASH ->
  encontrarSuspeito (inserirAssociacoes t l) (Some q)
  = match ultima_associacao l q with
    | Some s => strncpy (MAX_NOME - 1) s
    | None => encontrarSuspeito t (Some q)
    end.
Proof.
  unfold inserirAssociacoes.
  revert t. induction l as [|[k s] l IH]; intros t Hl; [reflexivity|].
  cbn [fold_left ultima_associacao fst snd].
  rewrite IH by now rewrite inserirNaHash_length.
  destruct (ultima_associacao l q) as [s'|]; [reflexivity|].
  destruct (casa k q) eqn:Hc.
  - now apply inserirNaHash_esta.
  - now apply inserirNaHash_outra.
Qed.

Lemma encontrarSuspeito_ultima_associacao_witness :
  length inicializarHash = Z.to_nat TAM_HASH /\
  encontrarSuspeito tabela_da_mansao (Some "Pegadas de lama recentes")
  = strncpy (MAX_NOME - 1) "Jardineiro".
Proof.
  assert (H : length inicializarHash = Z.to_nat TAM_HASH) by reflexivity.
  split; [exact H|].
  apply (encontrarSuspeito_ultima_associacao inicializarHash
           associacoes_da_mansao "Pegadas de lama recentes" H).
Defined.

(** For a key that fits its node, an association answers exactly the
    searches for the text of the key. *)
Lemma casa_chave_curta k q :
  (String.length (cstr k) <= MAX_PISTA - 1)%nat ->
  casa k q = true <-> cstr k = cstr q.
Proof.
  intros Hk. unfold casa. rewrite andb_true_iff, Z.eqb_eq, bool_decide_eq_true.
  rewrite strncpy_curta by exact Hk. split; [tauto|].
  intros E. split; [|exact E].
  rewrite !hash_soma, E. reflexivity.
Qed.

(** ** More on the accusation *)

Lemma encontrarSuspeito_sem_no (t : Tabela) p :
  ausente t p -> encontrarSuspeito t (Some p) = Desconhecido.
Proof.
  intros Ha. unfold encontrarSuspeito. apply procurar_ausente.
  rewrite list_lookup_total_alt.
  destruct (t !! Z.to_nat (hash p)) as [b|] eqn:E; simpl; [|constructor].
  unfold ausente in Ha. eapply Forall_lookup_1 in Ha; eassumption.
Qed.

(** X8. The sentinel is a name like any other for the count: when the
    table has no node for any of the clues collected, accusing
    "Desconhecido" counts every clue of the store, and with two clues or
    more [verificarSuspeitoFinal] writes "Acusação confirmada!
    'Desconhecido' é considerado culpado", with the number of clues of the
    store as the evidence. *)
Theorem acusar_o_desconhecido (t : Tabela) (raiz : PistaNode)
    (resto : list ascii) :
  Forall (ausente t) (em_ordem raiz) ->
  contarPistasPorSuspeitoNaBST t raiz Desconhecido
  = Z.of_nat (length (em_ordem raiz)) /\
  ((2 <= length (em_ordem raiz))%nat ->
   let j := verificarSuspeitoFinal t raiz
              (digitar ("Desconhecido" +:+ nl) ++ resto) in
   jg_veredito j = Some Confirmada /\
   jg_saida j
   = cabecalho_acusacao
     ++ [Txt (nl +:+ "✅ Acusação confirmada! 'Desconhecido' é considerado culpado (evidências: "
              +:+ pretty (Z.of_nat (length (em_ordem raiz)))
              +:+ " pistas)." +:+ nl)]
     ++ resumo t raiz).
Proof.
  intros Ha.
  assert (Hc : contadorRec t Desconhecido raiz
               = Z.of_nat (length (em_ordem raiz))).
  { induction raiz as [|k e IHe d IHd]; [reflexivity|].
    cbn [em_ordem] in Ha. apply Forall_app in Ha as [He Hd].
    apply Forall_cons in Hd as [Hk Hd].
    cbn [contadorRec em_ordem]. rewrite IHe, IHd by assumption.
    rewrite (encontrarSuspeito_sem_no t k Hk), strcmp_refl.
    rewrite length_app. cbn [length Z.eqb]. lia. }
  assert (Hn : contarPistasPorSuspeitoNaBST t raiz Desconhecido
               = Z.of_nat (length (em_ordem raiz)))
    by (destruct raiz; [reflexivity | exact Hc]).
  split; [exact Hn|]. intros H2 j. unfold j, verificarSuspeitoFinal.
  change (fgets MAX_NOME (digitar ("Desconhecido" +:+ nl) ++ resto))
    with (Some ("Desconhecido" +:+ nl, resto)).
  assert (Hb : por_NUL ("Desconhecido" +:+ nl)
                       (strcspn ("Desconhecido" +:+ nl) nl)
               = String.append "Desconhecido" (String NUL ""))
    by reflexivity.
  cbv beta iota zeta. rewrite Hb.
  change (vazia (String.append "Desconhecido" (String NUL ""))) with false.
  cbv beta iota.
  assert (E : contarPistasPorSuspeitoNaBST t raiz
                (String.append "Desconhecido" (String NUL ""))
              = Z.of_nat (length (em_ordem raiz))).
  { rewrite <- Hn. destruct raiz as [|k e d]; [reflexivity|].
    cbn [contarPistasPorSuspeitoNaBST]. clear.
    generalize (PNo k e d). intros r.
    induction r as [|k' e' IHe d' IHd]; [reflexivity|].
    cbn [contadorRec]. rewrite IHe, IHd.
    rewrite <- (strcmp_cstr_r _ (String.append "Desconhecido" (String NUL ""))).
    reflexivity. }
  rewrite E.
  assert (Hk : classificar (Z.of_nat (length (em_ordem raiz))) = Confirmada).
  { rewrite classificar_contagem.
    destruct (length (em_ordem raiz)) as [|[|n]]; [lia | lia | reflexivity]. }
  rewrite Hk. cbn [jg_veredito jg_saida msg_veredito]. split; reflexivity.
Qed.

Lemma acusar_o_desconhecido_witness :
  Forall (ausente inicializarHash) (em_ordem pistas_do_jardineiro) /\
  contarPistasPorSuspeitoNaBST inicializarHash pistas_do_jardineiro Desconhecido
  = Z.of_nat (length (em_ordem pistas_do_jardineiro)).
Proof.
  assert (H : Forall (ausente inicializarHash) (em_ordem pistas_do_jardineiro)).
  { vm_compute. repeat constructor. }
  split; [exact H|].
  apply (acusar_o_desconhecido inicializarHash pistas_do_jardineiro [] H).
Defined.

(** X9. The count is between 0 and the number of clues collected,
    whatever the table and the name; so with fewer than two clues in the
    store no accusation is declared confirmed, and with none every
    accusation is declared unfounded. *)
Theorem contagem_limitada (t : Tabela) (raiz : PistaNode) (nome : string) :
  0 <= contarPistasPorSuspeitoNaBST t raiz nome
    <= Z.of_nat (length (em_ordem raiz)) /\
  ((length (em_ordem raiz) < 2)%nat ->
   classificar (contarPistasPorSuspeitoNaBST t raiz nome) <> Confirmada) /\
  (raiz = PNULL ->
   classificar (contarPistasPorSuspeitoNaBST t raiz nome) = SemFundamento).
Proof.
  assert (H : 0 <= contarPistasPorSuspeitoNaBST t raiz nome
                <= Z.of_nat (length (em_ordem raiz))).
  { destruct raiz; [simpl; lia | apply contadorRec_limites]. }
  split; [exact H|]. split.
  - intros Hl. unfold classificar.
    destruct (contarPistasPorSuspeitoNaBST t raiz nome >=? 2) eqn:G;
      [|destruct (_ >? 0); discriminate].
    rewrite Z.geb_leb in G. apply Z.leb_le in G. lia.
  - intros ->. reflexivity.
Qed.

Lemma contagem_limitada_witness :
  (length (em_ordem (inserirPista PNULL (Some "Pegadas de lama recentes")))
   < 2)%nat /\
  classificar
    (contarPistasPorSuspeitoNaBST tabela_da_mansao
       (inserirPista PNULL (Some "Pegadas de lama recentes")) "Jardineiro")
  <> Confirmada.
Proof.
  assert (H : (length (em_ordem (inserirPista PNULL
                                   (Some "Pegadas de lama recentes")))
               < 2)%nat) by (vm_compute; lia).
  split; [exact H|].
  apply (contagem_limitada tabela_da_mansao
           (inserirPista PNULL (Some "Pegadas de lama recentes"))
           "Jardineiro").
  exact H.
Defined.

Lemma fgets_laco_partes n stdin :
  list_ascii_of_string (fst (fgets_laco n stdin)) ++ snd (fgets_laco n stdin)
  = stdin /\
  (String.length (fst (fgets_laco n stdin)) <= n)%nat /\
  (stdin <> [] -> n <> O -> fst (fgets_laco n stdin) <> EmptyString).
Proof.
  revert stdin. induction n as [|n IH]; intros [|c r]; cbn [fgets_laco];
    try (cbn; repeat split; (lia || congruence)).
  destruct (uchar c =? uchar LF).
  - cbn. repeat split; (lia || congruence).
  - destruct (IH r) as (H1 & H2 & _).
    destruct (fgets_laco n r) as [s r']. cbn in *.
    repeat split; [now rewrite H1 | lia | discriminate].
Qed.

Lemma nome_lido_partes buf :
  let nome := cstr (por_NUL buf (strcspn buf nl)) in
  sem_LF nome /\
  (String.length nome <= String.length buf)%nat /\
  exists r, list_ascii_of_string buf = list_ascii_of_string nome ++ r.
Proof.
  assert (Hnul : forall r, cstr (String NUL r) = EmptyString) by reflexivity.
  induction buf as [|c buf IH]; cbn [strcspn por_NUL].
  - cbn. repeat split; try lia. now exists [].
  - assert (Hc : contem nl c = (uchar c =? uchar LF)).
    { cbn [contem nl]. change (uchar LF =? 0) with false. cbv iota.
      rewrite orb_false_r. apply Z.eqb_sym. }
    rewrite Hc.
    destruct ((uchar c =? 0) || (uchar c =? uchar LF)) eqn:E;
      cbn [por_NUL].
    + rewrite Hnul. cbn. repeat split; try lia. eexists; reflexivity.
    + apply orb_false_iff in E as [E0 EL]. cbn [cstr]. rewrite E0.
      destruct IH as (H1 & H2 & r & H3).
      cbn [sem_LF String.length list_ascii_of_string].
      apply Z.eqb_neq in EL.
      repeat split; [exact EL | exact H1 | lia |].
      exists r. now rewrite H3.
Qed.

(** X10. The accusation reads at least one character and at most
    [MAX_NOME - 1] = 63, and what it has not read is left in the input;
    the name accused is made of the first characters read, at most 63 of
    them, and holds no newline and no NUL. *)
Theorem nome_acusado_limites (t : Tabela) (raiz : PistaNode)
    (stdin : list ascii) (nome : string) :
  nome_acusado stdin = Some nome ->
  (String.length nome <= MAX_NOME - 1)%nat /\
  cstr nome = nome /\ sem_LF nome /\
  (exists r, stdin = list_ascii_of_string nome ++ r) /\
  exists lido,
    stdin = lido ++ jg_entrada (verificarSuspeitoFinal t raiz stdin) /\
    (0 < length lido <= MAX_NOME - 1)%nat.
Proof.
  unfold nome_acusado, verificarSuspeitoFinal, fgets.
  destruct stdin as [|c0 r0]; [discriminate|].
  pose proof (fgets_laco_partes (MAX_NOME - 1) (c0 :: r0)) as (H1 & H2 & H3).
  destruct (fgets_laco (MAX_NOME - 1) (c0 :: r0)) as [buf resto].
  cbn [fst snd] in *. intros Hn. injection Hn as <-.
  destruct (nome_lido_partes buf) as (N1 & N2 & r & N3).
  split; [lia|]. split; [apply cstr_idem|]. split; [exact N1|].
  split.
  - exists (r ++ resto). rewrite <- H1, N3, <- app_assoc. reflexivity.
  - exists (list_ascii_of_string buf).
    assert (Hj : forall j1 j2 (b : bool),
               jg_entrada j1 = resto -> jg_entrada j2 = resto ->
               jg_entrada (if b then j1 else j2) = resto)
      by (intros ? ? []; auto).
    rewrite Hj by reflexivity. split; [now rewrite H1|].
    assert (Hl : length (list_ascii_of_string buf) = String.length buf).
    { clear. induction buf; cbn; [reflexivity | now f_equal]. }
    rewrite Hl. split; [|exact H2].
    destruct buf; [|cbn; lia].
    exfalso. apply H3; [discriminate | unfold MAX_NOME; lia | reflexivity].
Qed.

Lemma nome_acusado_limites_witness :
  nome_acusado (digitar ("Jardineiro" +:+ nl +:+ "sobra")) = Some "Jardineiro" /\
  jg_entrada (verificarSuspeitoFinal tabela_da_mansao pistas_do_jardineiro
                (digitar ("Jardineiro" +:+ nl +:+ "sobra")))
  = digitar "sobra".
Proof.
  assert (H : nome_acusado (digitar ("Jardineiro" +:+ nl +:+ "sobra"))
              = Some "Jardineiro") by reflexivity.
  split; [exact H|].
  destruct (nome_acusado_limites tabela_da_mansao pistas_do_jardineiro
              (digitar ("Jardineiro" +:+ nl +:+ "sobra")) "Jardineiro" H)
    as (_ & _ & _ & _ & lido & _ & _).
  reflexivity.
Defined.

(** ** More on the exploration of the mansion *)








(** What a turn does to the room and to the store. *)
Lemma explorarMansao_corpo_passo c :
  raizPistas (config_de (explorarMansao_corpo c))
  = coletar (atual c) (raizPistas c) /\
  match explorarMansao_corpo c with
  | Continua c' =>
      atual c' = atual c \/
      sala_esquerda (atual c) = Some (atual c') \/
      sala_direita (atual c) = Some (atual c')
  | Encerrado c' => atual c' = atual c
  | SemEntrada c' => atual c' = atual c
  end.
Proof.
  unfold explorarMansao_corpo.
  destruct (scanf_c (entrada c)) as [[o r]|]; [|split; reflexivity].
  destruct (eh o "e" "E"); [|destruct (eh o "d" "D");
                              [|destruct (eh o "s" "S")]];
    try destruct (sala_esquerda (atual c)) eqn:Ee;
    try destruct (sala_direita (atual c)) eqn:Ed;
    cbn [config_de raizPistas atual]; split; auto.
Qed.

Lemma coletar_chaves_ok s raiz : chaves_ok raiz -> chaves_ok (coletar s raiz).
Proof.
  intros H. unfold coletar.
  destruct (negb (vazia (sala_pista s))); [apply chaves_ok_inserir|]; exact H.
Qed.

(** The clue collected in a room: none, or its text as a node holds it. *)
Lemma coletar_textos s raiz x :
  chaves_ok raiz ->
  x ∈ em_ordem (coletar s raiz) <->
  x ∈ em_ordem raiz \/
  (vazia (sala_pista s) = false /\ x = strncpy (MAX_PISTA - 1) (sala_pista s)).
Proof.
  intros Hc. unfold coletar. destruct (vazia (sala_pista s)) eqn:Ev; cbn [negb].
  - split; [tauto | intros [H|[H _]]; [exact H | discriminate]].
  - rewrite em_ordem_inserir_elem by exact Hc. rewrite Ev. tauto.
Qed.

Lemma caminho_inicio s l s' : caminho s l s' -> s ∈ l.
Proof.
  destruct 1; apply list_elem_of_here.
Qed.

Lemma explorarMansao_laco_caminho n c c' :
  explorarMansao_laco n c = Terminou c' \/
  explorarMansao_laco n c = Aguardando c' ->
  chaves_ok (raizPistas c) ->
  exists l,
    caminho (atual c) l (atual c') /\
    chaves_ok (raizPistas c') /\
    forall x,
      x ∈ em_ordem (raizPistas c') <->
      x ∈ em_ordem (raizPistas c) \/
      exists s, s ∈ l /\ vazia (sala_pista s) = false /\
                x = strncpy (MAX_PISTA - 1) (sala_pista s).
Proof.
  revert c. induction n as [|n IH]; intros c Hr Hc;
    [destruct Hr; discriminate|].
  cbn [explorarMansao_laco] in Hr.
  destruct (explorarMansao_corpo_passo c) as [Hp Ha].
  destruct (explorarMansao_corpo c) as [c1|c1|c1]; cbn [config_de] in Hp.
  - destruct (IH c1 Hr) as (l & Hl & Hc' & Hx);
      [rewrite Hp; apply coletar_chaves_ok, Hc|].
    destruct Ha as [Ha|[Ha|Ha]].
    + exists l. rewrite <- Ha. split; [exact Hl|]. split; [exact Hc'|].
      intros x. rewrite Hx, Hp, coletar_textos by exact Hc.
      split; [|tauto].
      intros [[H|H]|H]; [tauto | | tauto].
      right. exists (atual c1).
      split; [eapply caminho_inicio, Hl | rewrite Ha; exact H].
    + exists (atual c :: l).
      split; [eapply caminho_esquerda; eassumption|]. split; [exact Hc'|].
      intros x. rewrite Hx, Hp, coletar_textos by exact Hc.
      split.
      * intros [[H|H]|(s & Hs & H)]; [tauto | right; exists (atual c)
                                        | right; exists s];
          (split; [|exact H]); [apply list_elem_of_here
                               | now apply list_elem_of_further].
      * intros [H|(s & Hs & H)]; [tauto|].
        apply elem_of_cons in Hs as [->|Hs]; [tauto|].
        right. exists s. tauto.
    + exists (atual c :: l).
      split; [eapply caminho_direita; eassumption|]. split; [exact Hc'|].
      intros x. rewrite Hx, Hp, coletar_textos by exact Hc.
      split.
      * intros [[H|H]|(s & Hs & H)]; [tauto | right; exists (atual c)
                                        | right; exists s];
          (split; [|exact H]); [apply list_elem_of_here
                               | now apply list_elem_of_further].
      * intros [H|(s & Hs & H)]; [tauto|].
        apply elem_of_cons in Hs as [->|Hs]; [tauto|].
        right. exists s. tauto.
  - destruct Hr as [Hr|Hr]; [|discriminate]. injection Hr as <-.
    exists [atual c]. rewrite Ha. split; [apply caminho_aqui|].
    split; [rewrite Hp; apply coletar_chaves_ok, Hc|].
    intros x. rewrite Hp, coletar_textos by exact Hc.
    split.
    + intros [H|H]; [tauto|]. right. exists (atual c).
      split; [apply list_elem_of_here | exact H].
    + intros [H|(s & Hs & H)]; [tauto|].
      apply list_elem_of_singleton in Hs as ->. tauto.
  - destruct Hr as [Hr|Hr]; [discriminate|]. injection Hr as <-.
    exists [atual c]. rewrite Ha. split; [apply caminho_aqui|].
    split; [rewrite Hp; apply coletar_chaves_ok, Hc|].
    intros x. rewrite Hp, coletar_textos by exact Hc.
    split.
    + intros [H|H]; [tauto|]. right. exists (atual c).
      split; [apply list_elem_of_here | exact H].
    + intros [H|(s & Hs & H)]; [tauto|].
      apply list_elem_of_singleton in Hs as ->. tauto.
Qed.

(** X12. The exploration only walks down the tree and collects what it
    walks through: when it has ended or waits for input, the current room
    is reached from the first one by a path of left and right rooms, and
    the texts of the store are those it had at the start and the clues
    (the non-empty ones, as a node holds them) of the rooms of that path,
    no other. *)
Theorem exploracao_coleta_o_caminho (inicio : Sala) (raiz : PistaNode)
    (t : Tabela) (stdin : list ascii) (stdout : list evento) (c : Config) :
  chaves_ok raiz ->
  explorarMansao (Some inicio) raiz t stdin stdout = inl (Terminou c) \/
  explorarMansao (Some inicio) raiz t stdin stdout = inl (Aguardando c) ->
  exists l,
    caminho inicio l (atual c) /\
    forall x,
      x ∈ em_ordem (raizPistas c) <->
      x ∈ em_ordem raiz \/
      exists s, s ∈ l /\ vazia (sala_pista s) = false /\
                x = strncpy (MAX_PISTA - 1) (sala_pista s).
Proof.
  intros Hc Hr. unfold explorarMansao in Hr.
  destruct (explorarMansao_laco_caminho (S (length stdin))
              (MkConfig inicio raiz stdin stdout) c) as (l & Hl & _ & Hx).
  - destruct Hr as [Hr|Hr]; injection Hr as Hr; auto.
  - exact Hc.
  - exists l. split; [exact Hl | exact Hx].
Qed.

Lemma exploracao_coleta_o_caminho_witness :
  chaves_ok PNULL /\
  exists c l,
    explorarMansao (Some hall) PNULL tabela_da_mansao
      (digitar ("e" +:+ nl +:+ "d" +:+ nl)) [] = inl (Aguardando c) /\
    caminho hall l (atual c).
Proof.
  assert (H1 : chaves_ok PNULL) by constructor.
  split; [exact H1|].
  assert (H2 : exists c,
             explorarMansao (Some hall) PNULL tabela_da_mansao
               (digitar ("e" +:+ nl +:+ "d" +:+ nl)) [] = inl (Aguardando c))
    by (eexists; vm_compute; reflexivity).
  destruct H2 as [c H2].
  destruct (exploracao_coleta_o_caminho hall PNULL tabela_da_mansao
              (digitar ("e" +:+ nl +:+ "d" +:+ nl)) [] c H1 (or_intror H2))
    as (l & Hl & _).
  exists c, l. split; [exact H2 | exact Hl].
Defined.

Lemma todas_as_salas_aqui (P : Sala -> Prop) s : todas_as_salas P s -> P s.
Proof. destruct s; cbn. tauto. Qed.

Lemma todas_as_salas_esquerda (P : Sala -> Prop) s e :
  todas_as_salas P s -> sala_esquerda s = Some e -> todas_as_salas P e.
Proof. destruct s; cbn. intros (_ & H & _) ->. exact H. Qed.

Lemma todas_as_salas_direita (P : Sala -> Prop) s d :
  todas_as_salas P s -> sala_direita s = Some d -> todas_as_salas P d.
Proof. destruct s; cbn. intros (_ & _ & H) ->. exact H. Qed.

Lemma coletar_abr_abaixo s raiz :
  sala_ok s -> chaves_ok raiz -> abr abaixo raiz ->
  abr abaixo (coletar s raiz).
Proof.
  intros [_ [Hc Hl]] Hk Ha. unfold coletar.
  destruct (negb (vazia (sala_pista s))); [|exact Ha].
  apply abr_inserir; [|exact Hk | exact Ha].
  apply entra_a_direita_abaixo. now rewrite Hc.
Qed.

Lemma explorarMansao_laco_ordenada n c :
  todas_as_salas sala_ok (atual c) ->
  chaves_ok (raizPistas c) -> abr abaixo (raizPistas c) ->
  match explorarMansao_laco n c with
  | Esgotado _ => True
  | Terminou c' | Aguardando c' =>
      chaves_ok (raizPistas c') /\ abr abaixo (raizPistas c')
  end.
Proof.
  revert c. induction n as [|n IH]; intros c Hs Hk Ha; [exact I|].
  cbn [explorarMansao_laco].
  destruct (explorarMansao_corpo_passo c) as [Hp Hm].
  assert (Hk' : chaves_ok (coletar (atual c) (raizPistas c)))
    by apply coletar_chaves_ok, Hk.
  assert (Ha' : abr abaixo (coletar (atual c) (raizPistas c))).
  { apply coletar_abr_abaixo; [|exact Hk | exact Ha].
    apply (todas_as_salas_aqui sala_ok), Hs. }
  destruct (explorarMansao_corpo c) as [c1|c1|c1]; cbn [config_de] in Hp;
    try (rewrite Hp; split; assumption).
  apply IH; try (rewrite Hp; assumption).
  destruct Hm as [->|[Hm|Hm]]; [exact Hs | |].
  - eapply todas_as_salas_esquerda; eassumption.
  - eapply todas_as_salas_direita; eassumption.
Qed.

(** X13. In a mansion whose rooms hold clues that fit their arrays, as
    [criarSala] makes them, the store stays a search tree without
    repetition all along the exploration: started on a store in strictly
    ascending order, the exploration leaves one whose enumeration is
    strictly ascending and without duplicates. *)
Theorem exploracao_mantem_a_ordem (inicio : Sala) (raiz : PistaNode)
    (t : Tabela) (stdin : list ascii) (stdout : list evento) (c : Config) :
  todas_as_salas sala_ok inicio ->
  chaves_ok raiz -> abr abaixo raiz ->
  explorarMansao (Some inicio) raiz t stdin stdout = inl (Terminou c) \/
  explorarMansao (Some inicio) raiz t stdin stdout = inl (Aguardando c) ->
  StronglySorted abaixo (em_ordem (raizPistas c)) /\
  NoDup (em_ordem (raizPistas c)) /\
  chaves_ok (raizPistas c).
Proof.
  intros Hs Hk Ha Hr. unfold explorarMansao in Hr.
  pose proof (explorarMansao_laco_ordenada (S (length stdin))
                (MkConfig inicio raiz stdin stdout) Hs Hk Ha) as H.
  assert (H' : chaves_ok (raizPistas c) /\ abr abaixo (raizPistas c)).
  { destruct Hr as [Hr|Hr];
      [assert (E : explorarMansao_laco (S (length stdin))
                     (MkConfig inicio raiz stdin stdout) = Terminou c)
         by congruence
      |assert (E : explorarMansao_laco (S (length stdin))
                     (MkConfig inicio raiz stdin stdout) = Aguardando c)
         by congruence];
      rewrite E in H; exact H. }
  destruct H' as [H1 H2]. apply ordenada_abaixo in H2.
  split; [exact H2|]. split; [apply ordenada_abaixo_NoDup, H2 | exact H1].
Qed.

Lemma mansao_ok : todas_as_salas sala_ok hall.
Proof.
  cbn. repeat split; try (vm_compute; lia).
Qed.

Lemma exploracao_mantem_a_ordem_witness :
  todas_as_salas sala_ok hall /\ chaves_ok PNULL /\ abr abaixo PNULL /\
  exists c,
    explorarMansao (Some hall) PNULL tabela_da_mansao
      (digitar ("d" +:+ nl +:+ "d" +:+ nl +:+ "s" +:+ nl)) []
    = inl (Terminou c) /\
    StronglySorted abaixo (em_ordem (raizPistas c)).
Proof.
  assert (H1 : todas_as_salas sala_ok hall) by exact mansao_ok.
  assert (H2 : chaves_ok PNULL) by constructor.
  assert (H3 : abr abaixo PNULL) by exact I.
  split; [exact H1|]. split; [exact H2|]. split; [exact H3|].
  assert (H4 : exists c,
             explorarMansao (Some hall) PNULL tabela_da_mansao
               (digitar ("d" +:+ nl +:+ "d" +:+ nl +:+ "s" +:+ nl)) []
             = inl (Terminou c))
    by (eexists; vm_compute; reflexivity).
  destruct H4 as [c H4]. exists c. split; [exact H4|].
  apply (exploracao_mantem_a_ordem hall PNULL tabela_da_mansao
           (digitar ("d" +:+ nl +:+ "d" +:+ nl +:+ "s" +:+ nl)) [] c
           H1 H2 H3 (or_introl H4)).
Defined.

(** X14. A room made by [criarSala] holds the first 63 bytes of the name
    and the first 127 bytes of the clue, has no exits, and with a NULL or
    empty clue its visit leaves the store as it is; linked to rooms that
    are well formed all the way down, it is well formed all the way
    down. *)
Theorem criarSala_bem_formada (nome : string) (pista : option string)
    (e d : option Sala) :
  from_option (todas_as_salas sala_ok) True e ->
  from_option (todas_as_salas sala_ok) True d ->
  let s := criarSala nome pista in
  sala_nome s = strncpy (MAX_NOME - 1) nome /\
  sala_pista s = from_option (strncpy (MAX_PISTA - 1)) EmptyString pista /\
  folha s /\
  (from_option vazia true pista = true -> forall raiz, coletar s raiz = raiz) /\
  todas_as_salas sala_ok (ligar s e d).
Proof.
  intros He Hd s.
  assert (Hp : sala_pista s
               = from_option (strncpy (MAX_PISTA - 1)) EmptyString pista).
  { unfold s, criarSala. cbn [sala_pista].
    destruct pista as [p|]; cbn [from_option]; [|reflexivity].
    destruct p as [|c p]; [reflexivity|]. cbn [vazia].
    destruct (uchar c =? 0) eqn:E; [|reflexivity].
    unfold strncpy, MAX_PISTA. cbn [Nat.sub]. now rewrite E. }
  split; [reflexivity|]. split; [exact Hp|]. split; [split; reflexivity|].
  split.
  - intros Hv raiz. unfold coletar. rewrite Hp.
    destruct pista as [p|]; cbn [from_option] in *; [|reflexivity].
    assert (Hv' : vazia (strncpy (MAX_PISTA - 1) p) = true).
    { apply vazia_cstr. rewrite strncpy_cstr.
      destruct p as [|c p]; [reflexivity|]. cbn [vazia] in Hv.
      unfold strncpy, MAX_PISTA. cbn [Nat.sub]. now rewrite Hv. }
    now rewrite Hv'.
  - unfold ligar. cbn [todas_as_salas].
    split; [apply (criarSala_ok nome pista)|].
    split; [destruct e | destruct d]; assumption.
Qed.

Lemma criarSala_bem_formada_witness :
  from_option (todas_as_salas sala_ok) True (Some estudo) /\
  from_option (todas_as_salas sala_ok) True (Some jardim) /\
  todas_as_salas sala_ok
    (ligar (criarSala "Biblioteca" (Some "Página arrancada de um diário"))
           (Some estudo) (Some jardim)).
Proof.
  assert (H1 : from_option (todas_as_salas sala_ok) True (Some estudo))
    by (cbn; repeat split; vm_compute; lia).
  assert (H2 : from_option (todas_as_salas sala_ok) True (Some jardim))
    by (cbn; repeat split; vm_compute; lia).
  split; [exact H1|]. split; [exact H2|].
  apply (criarSala_bem_formada "Biblioteca"
           (Some "Página arrancada de um diário") (Some estudo) (Some jardim)
           H1 H2).
Defined.

(** More turns allowed do not change a run that ended. *)
Lemma explorarMansao_laco_mais n m c c' :
  explorarMansao_laco n c = Terminou c' -> (n <= m)%nat ->
  explorarMansao_laco m c = Terminou c'.
Proof.
  revert m c. induction n as [|n IH]; intros m c H Hm; [discriminate|].
  destruct m as [|m]; [lia|]. cbn [explorarMansao_laco] in *.
  destruct (explorarMansao_corpo c); try exact H.
  apply IH; [exact H | lia].
Qed.

(** X15. The option 's' or 'S' ends the exploration at once in any room,
    with or without exits: the clue of the room has been collected, the
    rest of the line is discarded, "Encerrando exploração..." is written
    and nothing else is read. *)
Theorem encerrar_a_exploracao (s : Sala) (raiz : PistaNode) (t : Tabela)
    (stdin : list ascii) (stdout : list evento) (opcao : ascii)
    (resto : list ascii) :
  scanf_c stdin = Some (opcao, resto) ->
  eh opcao "s" "S" = true ->
  explorarMansao (Some s) raiz t stdin stdout
  = inl (Terminou (MkConfig s (coletar s raiz) (limparBufferEntrada resto)
                     ((stdout ++ tela s) ++ [msg_encerrando]))).
Proof.
  intros Hs He. unfold explorarMansao. cbn [explorarMansao_laco].
  unfold explorarMansao_corpo. cbn [atual raizPistas entrada saida].
  rewrite Hs. destruct (eh_encerrar opcao He) as [-> ->]. rewrite He.
  reflexivity.
Qed.

Lemma encerrar_a_exploracao_witness :
  scanf_c (digitar ("  S fim" +:+ nl +:+ "Jardineiro" +:+ nl))
  = Some ("S"%char, digitar (" fim" +:+ nl +:+ "Jardineiro" +:+ nl)) /\
  eh "S" "s" "S" = true /\
  explorarMansao (Some hall) PNULL tabela_da_mansao
    (digitar ("  S fim" +:+ nl +:+ "Jardineiro" +:+ nl)) []
  = inl (Terminou (MkConfig hall (coletar hall PNULL)
                     (digitar ("Jardineiro" +:+ nl))
                     (([] ++ tela hall) ++ [msg_encerrando]))).
Proof.
  assert (H1 : scanf_c (digitar ("  S fim" +:+ nl +:+ "Jardineiro" +:+ nl))
               = Some ("S"%char, digitar (" fim" +:+ nl +:+ "Jardineiro" +:+ nl)))
    by reflexivity.
  assert (H2 : eh "S" "s" "S" = true) by reflexivity.
  split; [exact H1|]. split; [exact H2|].
  apply (encerrar_a_exploracao hall PNULL tabela_da_mansao
           (digitar ("  S fim" +:+ nl +:+ "Jardineiro" +:+ nl)) [] "S"%char
           (digitar (" fim" +:+ nl +:+ "Jardineiro" +:+ nl)) H1 H2).
Defined.

(** The turns of the valid options typed alone on their lines. *)
Lemma explorarMansao_corpo_e s raiz x stdout e :
  sala_esquerda s = Some e ->
  explorarMansao_corpo (MkConfig s raiz ("e"%char :: LF :: x) stdout)
  = Continua (MkConfig e (coletar s raiz) x (stdout ++ tela s)).
Proof.
  intros He. unfold explorarMansao_corpo.
  cbn [atual raizPistas entrada saida].
  change (scanf_c ("e"%char :: LF :: x)) with (Some ("e"%char, LF :: x)).
  cbv beta iota zeta.
  change (limparBufferEntrada (LF :: x)) with x.
  change (eh "e" "e" "E") with true. cbv iota.
  now rewrite He.
Qed.

Lemma explorarMansao_corpo_d s raiz x stdout d :
  sala_direita s = Some d ->
  explorarMansao_corpo (MkConfig s raiz ("d"%char :: LF :: x) stdout)
  = Continua (MkConfig d (coletar s raiz) x (stdout ++ tela s)).
Proof.
  intros Hd. unfold explorarMansao_corpo.
  cbn [atual raizPistas entrada saida].
  change (scanf_c ("d"%char :: LF :: x)) with (Some ("d"%char, LF :: x)).
  cbv beta iota zeta.
  change (limparBufferEntrada (LF :: x)) with x.
  change (eh "d" "e" "E") with false.
  change (eh "d" "d" "D") with true. cbv iota.
  now rewrite Hd.
Qed.

Lemma explorarMansao_laco_direcoes ds s raiz resto stdout l :
  andar s ds = Some l ->
  exists ultima sd,
    last l = Some ultima /\
    explorarMansao_laco (S (length ds))
      (MkConfig s raiz (teclas ds ++ "s"%char :: LF :: resto) stdout)
    = Terminou (MkConfig ultima (coletar_todas l raiz) resto sd).
Proof.
  revert s raiz stdout l. induction ds as [|d ds IH]; intros s raiz stdout l Hl;
    cbn [andar] in Hl.
  - injection Hl as <-. exists s. eexists. split; reflexivity.
  - destruct d.
    + destruct (sala_esquerda s) as [e|] eqn:Ee; [|discriminate].
      destruct (andar e ds) as [l'|] eqn:El; [|discriminate].
      injection Hl as <-.
      destruct (IH e (coletar s raiz) (stdout ++ tela s) l' El)
        as (u & sd & Hu & Hr).
      exists u, sd. split.
      * destruct l'; [discriminate | exact Hu].
      * cbn [length]. cbn [explorarMansao_laco teclas flat_map app].
        rewrite (explorarMansao_corpo_e _ _ _ _ e Ee). exact Hr.
    + destruct (sala_direita s) as [e|] eqn:Ee; [|discriminate].
      destruct (andar e ds) as [l'|] eqn:El; [|discriminate].
      injection Hl as <-.
      destruct (IH e (coletar s raiz) (stdout ++ tela s) l' El)
        as (u & sd & Hu & Hr).
      exists u, sd. split.
      * destruct l'; [discriminate | exact Hu].
      * cbn [length]. cbn [explorarMansao_laco teclas flat_map app].
        rewrite (explorarMansao_corpo_d _ _ _ _ e Ee). exact Hr.
Qed.

(** X16. Typing the directions of a way down the mansion, one letter to a
    line, and then 's', ends the exploration in the room at the end of the
    way, with the store holding what the visit of each room of the way in
    turn collects, and with what was typed after the line of the 's' left
    unread. *)
Theorem explorar_pelas_direcoes (inicio : Sala) (ds : list Direcao)
    (l : list Sala) (raiz : PistaNode) (t : Tabela) (resto : list ascii)
    (stdout : list evento) :
  andar inicio ds = Some l ->
  exists ultima sd,
    last l = Some ultima /\
    explorarMansao (Some inicio) raiz t
      (teclas ds ++ "s"%char :: LF :: resto) stdout
    = inl (Terminou (MkConfig ultima (coletar_todas l raiz) resto sd)).
Proof.
  intros Hl.
  destruct (explorarMansao_laco_direcoes ds inicio raiz resto stdout l Hl)
    as (u & sd & Hu & Hr).
  exists u, sd. split; [exact Hu|]. unfold explorarMansao. f_equal.
  eapply explorarMansao_laco_mais; [exact Hr|].
  rewrite length_app. cbn [length].
  assert (H : (length ds <= length (teclas ds))%nat).
  { clear. unfold teclas.
    induction ds as [|d ds IH]; cbn [flat_map]; [cbn; lia|].
    rewrite length_app. cbn [length]. lia. }
  lia.
Qed.

Lemma explorar_pelas_direcoes_witness :
  andar hall [Esquerda; Direita] = Some [hall; biblioteca; jardim] /\
  exists sd,
    explorarMansao (Some hall) PNULL tabela_da_mansao
      (teclas [Esquerda; Direita] ++ "s"%char :: LF :: digitar "Jardineiro") []
    = inl (Terminou (MkConfig jardim
                       (coletar_todas [hall; biblioteca; jardim] PNULL)
                       (digitar "Jardineiro") sd)).
Proof.
  assert (H : andar hall [Esquerda; Direita] = Some [hall; biblioteca; jardim])
    by reflexivity.
  split; [exact H|].
  destruct (explorar_pelas_direcoes hall [Esquerda; Direita]
              [hall; biblioteca; jardim] PNULL tabela_da_mansao
              (digitar "Jardineiro") [] H) as (u & sd & Hu & Hr).
  injection Hu as <-. exists sd. exact Hr.
Defined.

(** ** The exploration of the first program *)

(** X17. In [explorarSalas], in a room with an exit, an option that is not
    a way out of the room is answered with one of the three messages of
    the program and leaves the player in the room; one line of input is
    consumed, and no ENTER is waited for. *)
Theorem novato_opcao_invalida_sem_efeito (c : Novato.Config) (opcao : ascii)
    (resto : list ascii) :
  ~ Novato.folha (Novato.atual c) ->
  scanf_c (Novato.entrada c) = Some (opcao, resto) ->
  novato_opcao_invalida (Novato.atual c) opcao ->
  exists aviso,
    aviso ∈ [Novato.msg_sem_esquerda; Novato.msg_sem_direita;
             Novato.msg_opcao_invalida] /\
    Novato.explorarSalas_corpo c
    = Continua (Novato.MkConfig (Novato.atual c) (limparBufferEntrada resto)
                  (((Novato.saida c ++ Novato.cabecalho (Novato.atual c))
                    ++ Novato.menu (Novato.atual c)) ++ [aviso])).
Proof.
  intros Hf Hs Hi. unfold Novato.explorarSalas_corpo. rewrite Hs.
  destruct Hi as [[He Hn]|[(He & Hd & Hn)|(He & Hd & Hx)]].
  - exists Novato.msg_sem_esquerda. split; [apply list_elem_of_here|].
    rewrite He, Hn.
    destruct (Novato.sala_direita (Novato.atual c)) eqn:Ed; [reflexivity|].
    destruct Hf. split; assumption.
  - exists Novato.msg_sem_direita.
    split; [apply list_elem_of_further, list_elem_of_here|].
    rewrite He, Hd, Hn.
    destruct (Novato.sala_esquerda (Novato.atual c)) eqn:Ee; [reflexivity|].
    destruct Hf. split; assumption.
  - exists Novato.msg_opcao_invalida.
    split; [do 2 apply list_elem_of_further; apply list_elem_of_here|].
    rewrite He, Hd, Hx.
    destruct (Novato.sala_esquerda (Novato.atual c)) eqn:Ee;
      destruct (Novato.sala_direita (Novato.atual c)) eqn:Ed;
      try reflexivity.
    destruct Hf. split; assumption.
Qed.

Lemma novato_opcao_invalida_sem_efeito_witness :
  ~ Novato.folha Novato.cozinha /\
  scanf_c (digitar ("e" +:+ nl)) = Some ("e"%char, [LF]) /\
  novato_opcao_invalida Novato.cozinha "e" /\
  exists aviso,
    Novato.explorarSalas_corpo
      (Novato.MkConfig Novato.cozinha (digitar ("e" +:+ nl)) [])
    = Continua (Novato.MkConfig Novato.cozinha []
                  ((([] ++ Novato.cabecalho Novato.cozinha)
                    ++ Novato.menu Novato.cozinha) ++ [aviso])).
Proof.
  assert (H1 : ~ Novato.folha Novato.cozinha) by (intros [_ H]; discriminate H).
  assert (H2 : scanf_c (digitar ("e" +:+ nl)) = Some ("e"%char, [LF]))
    by reflexivity.
  assert (H3 : novato_opcao_invalida Novato.cozinha "e")
    by (left; split; reflexivity).
  split; [exact H1|]. split; [exact H2|]. split; [exact H3|].
  destruct (novato_opcao_invalida_sem_efeito
              (Novato.MkConfig Novato.cozinha (digitar ("e" +:+ nl)) [])
              "e"%char [LF] H1 H2 H3) as (aviso & _ & H).
  exists aviso. exact H.
Defined.

Lemma explorarSalas_laco_fim n c :
  match Novato.explorarSalas_laco n c with
  | Terminou c' =>
      (Novato.folha (Novato.atual c') /\
       termina_com (Novato.saida c') Novato.msg_fim) \/
      termina_com (Novato.saida c') Novato.msg_saindo
  | Aguardando c' =>
      ~ Novato.folha (Novato.atual c') /\ Novato.entrada c' = []
  | Esgotado _ => True
  end.
Proof.
  revert c. induction n as [|n IH]; intros c; [exact I|].
  cbn [Novato.explorarSalas_laco].
  destruct (Novato.explorarSalas_corpo c) as [c1|c1|c1] eqn:E; [apply IH | |];
    unfold Novato.explorarSalas_corpo in E.
  - destruct (Novato.sala_esquerda (Novato.atual c)) eqn:Ee;
      destruct (Novato.sala_direita (Novato.atual c)) eqn:Ed;
      try (injection E as <-; left; cbn [Novato.atual Novato.saida];
           split; [split; assumption | eexists; reflexivity]);
      (destruct (scanf_c (Novato.entrada c)) as [[o r]|]; [|discriminate]);
      (destruct (eh o "e" "E"); [discriminate|]);
      (destruct (eh o "d" "D"); [discriminate|]);
      (destruct (eh o "s" "S"); [|discriminate]);
      injection E as <-; right; eexists; reflexivity.
  - destruct (Novato.sala_esquerda (Novato.atual c)) eqn:Ee;
      destruct (Novato.sala_direita (Novato.atual c)) eqn:Ed;
      try discriminate;
      (destruct (scanf_c (Novato.entrada c)) as [[o r]|];
       [destruct (eh o "e" "E"); [discriminate|];
        destruct (eh o "d" "D"); [discriminate|];
        destruct (eh o "s" "S"); discriminate|]);
      injection E as <-; cbn [Novato.atual Novato.entrada];
      (split; [|reflexivity]); intros [H1 H2]; congruence.
Qed.

(** X18. [explorarSalas], end of file included, returns in two ways only:
    in a room without exits, with "Você chegou ao fim da exploração!"
    written last, or on an option 's', with "Saindo da exploração..."
    written last; the option may be the one read last, kept in [opcao]
    when [scanf] fails at end of file. *)
Theorem explorarSalas_retorno (n : nat) (opcao : ascii)
    (c c' : Novato.Config) :
  explorarSalas_completo n opcao c = Terminou c' ->
  (Novato.folha (Novato.atual c') /\
   termina_com (Novato.saida c') Novato.msg_fim) \/
  termina_com (Novato.saida c') Novato.msg_saindo.
Proof.
  revert opcao c. induction n as [|n IH]; intros opcao c H; [discriminate|].
  cbn [explorarSalas_completo] in H.
  destruct (explorarSalas_corpo_eof opcao c) as [o [c1|c1|c1]] eqn:E;
    [eapply IH; exact H | | discriminate].
  injection H as <-. unfold explorarSalas_corpo_eof in E.
  destruct (Novato.sala_esquerda (Novato.atual c)) eqn:Ee;
    destruct (Novato.sala_direita (Novato.atual c)) eqn:Ed;
    try (injection E as _ <-; left; cbn [Novato.atual Novato.saida];
         split; [split; assumption | eexists; reflexivity]);
    (destruct (scanf_c (Novato.entrada c)) as [[l r]|];
     injection E as _ E; unfold explorarSalas_ramo in E;
     rewrite ?Ee, ?Ed in E;
     repeat match type of E with
            | context [if ?b then _ else _] => destruct b
            end;
     try discriminate; injection E as <-; right; eexists; reflexivity).
Qed.

Lemma explorarSalas_retorno_witness :
  exists c',
    explorarSalas_completo 3 "x"
      (Novato.MkConfig Novato.hall (digitar ("e" +:+ nl)) [])
    = Terminou c' /\
    Novato.atual c' = Novato.estudo /\
    Novato.folha (Novato.atual c').
Proof.
  assert (H : exists c',
             explorarSalas_completo 3 "x"
               (Novato.MkConfig Novato.hall (digitar ("e" +:+ nl)) [])
             = Terminou c' /\ Novato.atual c' = Novato.estudo).
  { eexists. split; [vm_compute; reflexivity | reflexivity]. }
  destruct H as (c' & H & Ha). exists c'.
  split; [exact H|]. split; [exact Ha|].
  destruct (explorarSalas_retorno 3 "x"%char _ c' H) as [[Hf _]|Hs].
  - exact Hf.
  - rewrite Ha. split; reflexivity.
Defined.

(** X27. Where the reads of the options succeed the turns with the
    variable [opcao] are those of [explorarSalas_corpo]: when the run
    described by [Novato.explorarSalas] returns, the loop with end of file
    returns in the same state, whatever [opcao] held at the start. *)
Theorem explorarSalas_completo_igual (n : nat) (c c' : Novato.Config) :
  Novato.explorarSalas_laco n c = Terminou c' ->
  forall opcao, explorarSalas_completo n opcao c = Terminou c'.
Proof.
  revert c. induction n as [|n IH]; intros c H opcao; [discriminate|].
  cbn [Novato.explorarSalas_laco] in H. cbn [explorarSalas_completo].
  assert (E : Novato.explorarSalas_corpo c = SemEntrada (config_de (Novato.explorarSalas_corpo c)) \/
              exists o, explorarSalas_corpo_eof opcao c
                        = (o, Novato.explorarSalas_corpo c)).
  { unfold explorarSalas_corpo_eof, Novato.explorarSalas_corpo,
      explorarSalas_ramo.
    destruct (Novato.sala_esquerda (Novato.atual c));
      destruct (Novato.sala_direita (Novato.atual c));
      try (right; eexists; reflexivity);
      (destruct (scanf_c (Novato.entrada c)) as [[l r]|];
       [right; eexists; reflexivity | left; reflexivity]). }
  destruct E as [E|[o E]].
  - rewrite E in H. discriminate.
  - rewrite E. destruct (Novato.explorarSalas_corpo c); [|exact H|discriminate].
    apply IH, H.
Qed.

Lemma explorarSalas_completo_igual_witness :
  exists c',
    Novato.explorarSalas_laco 3
      (Novato.MkConfig Novato.hall (digitar ("d" +:+ nl +:+ "s" +:+ nl)) [])
    = Terminou c' /\
    explorarSalas_completo 3 "x"
      (Novato.MkConfig Novato.hall (digitar ("d" +:+ nl +:+ "s" +:+ nl)) [])
    = Terminou c'.
Proof.
  assert (H : exists c',
             Novato.explorarSalas_laco 3
               (Novato.MkConfig Novato.hall
                  (digitar ("d" +:+ nl +:+ "s" +:+ nl)) [])
             = Terminou c') by (eexists; vm_compute; reflexivity).
  destruct H as [c' H]. exists c'. split; [exact H|].
  apply (explorarSalas_completo_igual 3 _ c' H).
Defined.

(** At end of file with a stale option that is no way out of a room with
    an exit, the first program repeats its turn for ever. *)
Example explorarSalas_gira_no_fim_de_arquivo :
  forall m c',
    explorarSalas_completo m "x"
      (Novato.MkConfig Novato.hall (digitar ("x" +:+ nl)) [])
    <> Terminou c'.
Proof.
  assert (H : forall m c c',
             Novato.atual c = Novato.hall -> Novato.entrada c = [] ->
             explorarSalas_completo m "x" c <> Terminou c').
  { induction m as [|m IH]; intros c c' Ha He; [discriminate|].
    cbn [explorarSalas_completo]. unfold explorarSalas_corpo_eof.
    rewrite Ha, He. cbn. apply IH; reflexivity. }
  intros [|m] c'; [discriminate|].
  cbn [explorarSalas_completo]. unfold explorarSalas_corpo_eof. cbn.
  apply H; reflexivity.
Qed.

Lemma explorarSalas_laco_mais n m c c' :
  Novato.explorarSalas_laco n c = Terminou c' -> (n <= m)%nat ->
  Novato.explorarSalas_laco m c = Terminou c'.
Proof.
  revert m c. induction n as [|n IH]; intros m c H Hm; [discriminate|].
  destruct m as [|m]; [lia|]. cbn [Novato.explorarSalas_laco] in *.
  destruct (Novato.explorarSalas_corpo c); try exact H.
  apply IH; [exact H | lia].
Qed.

Lemma explorarSalas_corpo_e s x stdout e :
  Novato.sala_esquerda s = Some e ->
  Novato.explorarSalas_corpo (Novato.MkConfig s ("e"%char :: LF :: x) stdout)
  = Continua (Novato.MkConfig e x
                ((stdout ++ Novato.cabecalho s) ++ Novato.menu s)).
Proof.
  intros He. unfold Novato.explorarSalas_corpo.
  cbn [Novato.atual Novato.entrada Novato.saida]. rewrite He.
  change (scanf_c ("e"%char :: LF :: x)) with (Some ("e"%char, LF :: x)).
  cbv beta iota zeta.
  change (limparBufferEntrada (LF :: x)) with x.
  change (eh "e" "e" "E") with true. reflexivity.
Qed.

Lemma explorarSalas_corpo_d s x stdout d :
  Novato.sala_direita s = Some d ->
  Novato.explorarSalas_corpo (Novato.MkConfig s ("d"%char :: LF :: x) stdout)
  = Continua (Novato.MkConfig d x
                ((stdout ++ Novato.cabecalho s) ++ Novato.menu s)).
Proof.
  intros Hd. unfold Novato.explorarSalas_corpo.
  cbn [Novato.atual Novato.entrada Novato.saida]. rewrite Hd.
  change (scanf_c ("d"%char :: LF :: x)) with (Some ("d"%char, LF :: x)).
  cbv beta iota zeta.
  change (limparBufferEntrada (LF :: x)) with x.
  change (eh "d" "e" "E") with false.
  change (eh "d" "d" "D") with true.
  destruct (Novato.sala_esquerda s); reflexivity.
Qed.

Lemma novato_andar_nao_vazio s ds l : novato_andar s ds = Some l -> l <> [].
Proof.
  destruct ds as [|[] ds]; cbn [novato_andar]; intros H.
  - injection H as <-. discriminate.
  - destruct (Novato.sala_esquerda s); [|discriminate].
    destruct (novato_andar _ ds); [|discriminate].
    injection H as <-. discriminate.
  - destruct (Novato.sala_direita s); [|discriminate].
    destruct (novato_andar _ ds); [|discriminate].
    injection H as <-. discriminate.
Qed.

Lemma explorarSalas_laco_direcoes ds s resto stdout l ultima :
  novato_andar s ds = Some l -> last l = Some ultima ->
  Novato.folha ultima ->
  exists sd,
    termina_com sd Novato.msg_fim /\
    Novato.explorarSalas_laco (S (length ds))
      (Novato.MkConfig s (teclas ds ++ resto) stdout)
    = Terminou (Novato.MkConfig ultima resto sd).
Proof.
  revert s stdout l. induction ds as [|d ds IH]; intros s stdout l Hl Hu Hf;
    cbn [novato_andar] in Hl.
  - injection Hl as <-. cbn in Hu.
    assert (E : ultima = s) by congruence. subst ultima.
    destruct Hf as [He Hd].
    eexists. split; [eexists; reflexivity|].
    cbn [length Novato.explorarSalas_laco teclas flat_map app].
    unfold Novato.explorarSalas_corpo.
    cbn [Novato.atual Novato.entrada Novato.saida].
    rewrite He, Hd. reflexivity.
  - destruct d.
    + destruct (Novato.sala_esquerda s) as [e|] eqn:Ee; [|discriminate].
      destruct (novato_andar e ds) as [l'|] eqn:El; [|discriminate].
      injection Hl as <-.
      assert (Hu' : last l' = Some ultima)
        by (destruct l'; [now apply novato_andar_nao_vazio in El | exact Hu]).
      destruct (IH e ((stdout ++ Novato.cabecalho s) ++ Novato.menu s) l'
                  El Hu' Hf) as (sd & Hsd & Hr).
      exists sd. split; [exact Hsd|].
      cbn [length]. cbn [Novato.explorarSalas_laco teclas flat_map app].
      rewrite (explorarSalas_corpo_e _ _ _ e Ee). exact Hr.
    + destruct (Novato.sala_direita s) as [e|] eqn:Ee; [|discriminate].
      destruct (novato_andar e ds) as [l'|] eqn:El; [|discriminate].
      injection Hl as <-.
      assert (Hu' : last l' = Some ultima)
        by (destruct l'; [now apply novato_andar_nao_vazio in El | exact Hu]).
      destruct (IH e ((stdout ++ Novato.cabecalho s) ++ Novato.menu s) l'
                  El Hu' Hf) as (sd & Hsd & Hr).
      exists sd. split; [exact Hsd|].
      cbn [length]. cbn [Novato.explorarSalas_laco teclas flat_map app].
      rewrite (explorarSalas_corpo_d _ _ _ e Ee). exact Hr.
Qed.

(** X19. In the first program, typing the directions of a way that ends
    in a room without exits, one letter to a line, makes [explorarSalas]
    return in that room after "Você chegou ao fim da exploração!", with
    what was typed after the directions left unread. *)
Theorem novato_explorar_ate_a_folha (inicio : Novato.Sala)
    (ds : list Direcao) (l : list Novato.Sala) (ultima : Novato.Sala)
    (resto : list ascii) (stdout : list evento) :
  novato_andar inicio ds = Some l -> last l = Some ultima ->
  Novato.folha ultima ->
  exists sd,
    termina_com sd Novato.msg_fim /\
    Novato.explorarSalas inicio (teclas ds ++ resto) stdout
    = Terminou (Novato.MkConfig ultima resto sd).
Proof.
  intros Hl Hu Hf.
  destruct (explorarSalas_laco_direcoes ds inicio resto stdout l ultima
              Hl Hu Hf) as (sd & Hsd & Hr).
  exists sd. split; [exact Hsd|]. unfold Novato.explorarSalas.
  eapply explorarSalas_laco_mais; [exact Hr|].
  rewrite length_app.
  assert (H : (length ds <= length (teclas ds))%nat).
  { clear. unfold teclas.
    induction ds as [|d ds IH]; cbn [flat_map]; [cbn; lia|].
    rewrite length_app. cbn [length]. lia. }
  lia.
Qed.

Lemma novato_explorar_ate_a_folha_witness :
  novato_andar Novato.hall [Direita; Direita]
  = Some [Novato.hall; Novato.cozinha; Novato.sotao] /\
  last [Novato.hall; Novato.cozinha; Novato.sotao] = Some Novato.sotao /\
  Novato.folha Novato.sotao /\
  exists sd,
    Novato.explorarSalas Novato.hall
      (teclas [Direita; Direita] ++ digitar "e") []
    = Terminou (Novato.MkConfig Novato.sotao (digitar "e") sd).
Proof.
  assert (H1 : novato_andar Novato.hall [Direita; Direita]
               = Some [Novato.hall; Novato.cozinha; Novato.sotao])
    by reflexivity.
  assert (H2 : last [Novato.hall; Novato.cozinha; Novato.sotao]
               = Some Novato.sotao) by reflexivity.
  assert (H3 : Novato.folha Novato.sotao) by (split; reflexivity).
  split; [exact H1|]. split; [exact H2|]. split; [exact H3|].
  destruct (novato_explorar_ate_a_folha Novato.hall [Direita; Direita]
              [Novato.hall; Novato.cozinha; Novato.sotao] Novato.sotao
              (digitar "e") [] H1 H2 H3) as (sd & _ & H).
  exists sd. exact H.
Defined.

(** ** The second program *)

Lemma aventureiro_inserirPista_igual_aux t p :
  vazia p = false ->
  (String.length (cstr p) <= Aventureiro.MAX_PISTA - 1)%nat ->
  Aventureiro.inserirPista t p = inserirPista t (Some p).
Proof.
  intros Hv Hl.
  assert (Hs : strncpy (MAX_PISTA - 1) p = cstr p).
  { apply strncpy_curta. unfold Aventureiro.MAX_PISTA, MAX_PISTA in *. lia. }
  induction t as [|k e IHe d IHd];
    cbn [Aventureiro.inserirPista inserirPista]; rewrite Hv.
  - now rewrite Hs.
  - rewrite IHe, IHd. reflexivity.
Qed.

(** X20. On a text that is not empty and fits the node of the second
    program (at most 99 bytes), [inserirPista] of the second program and
    [inserirPista] of the last one build the same tree. *)
Theorem aventureiro_inserirPista_igual (t : PistaNode) (p : string) :
  vazia p = false ->
  (String.length (cstr p) <= Aventureiro.MAX_PISTA - 1)%nat ->
  Aventureiro.inserirPista t p = inserirPista t (Some p).
Proof.
  apply aventureiro_inserirPista_igual_aux.
Qed.

Lemma aventureiro_inserirPista_igual_witness :
  vazia "Pegadas de lama recentes" = false /\
  (String.length (cstr "Pegadas de lama recentes")
   <= Aventureiro.MAX_PISTA - 1)%nat /\
  Aventureiro.inserirPista pistas_do_jardineiro "Pegadas de lama recentes"
  = inserirPista pistas_do_jardineiro (Some "Pegadas de lama recentes").
Proof.
  assert (H1 : vazia "Pegadas de lama recentes" = false) by reflexivity.
  assert (H2 : (String.length (cstr "Pegadas de lama recentes")
                <= Aventureiro.MAX_PISTA - 1)%nat) by (vm_compute; lia).
  split; [exact H1|]. split; [exact H2|].
  apply (aventureiro_inserirPista_igual pistas_do_jardineiro
           "Pegadas de lama recentes" H1 H2).
Defined.

Lemma aventureiro_inserir_Forall (P : string -> Prop) t p :
  Forall P (em_ordem t) -> P (cstr p) ->
  Forall P (em_ordem (Aventureiro.inserirPista t p)).
Proof.
  intros Ht Hp. induction t as [|k e IHe d IHd];
    cbn [Aventureiro.inserirPista em_ordem].
  - repeat constructor. exact Hp.
  - cbn [em_ordem] in Ht. apply Forall_app in Ht as [He Hd].
    apply Forall_cons in Hd as [Hk Hd].
    destruct (strcmp p k <? 0); [|destruct (strcmp p k >? 0)];
      cbn [em_ordem]; apply Forall_app; split; try assumption;
      try (constructor; assumption); auto.
Qed.

Lemma aventureiro_inserir_abr t p :
  abr abaixo t -> abr abaixo (Aventureiro.inserirPista t p).
Proof.
  induction t as [|k e IHe d IHd]; cbn [Aventureiro.inserirPista abr].
  - intros _. repeat split; constructor.
  - intros (Hl & Hr & He & Hd).
    destruct (strcmp p k <? 0) eqn:E1; [|destruct (strcmp p k >? 0) eqn:E2];
      cbn [abr]; repeat split; auto.
    + apply aventureiro_inserir_Forall; [exact Hl|].
      apply Z.ltb_lt in E1. unfold abaixo. now rewrite strcmp_cstr_l.
    + apply aventureiro_inserir_Forall; [exact Hr|].
      apply Z.gtb_gt in E2. unfold abaixo.
      rewrite strcmp_cstr_r, strcmp_antisym. lia.
Qed.

Lemma aventureiro_inserir_elem t p x :
  Forall (fun k => cstr k = k) (em_ordem t) ->
  x ∈ em_ordem (Aventureiro.inserirPista t p) <->
  x ∈ em_ordem t \/ x = cstr p.
Proof.
  intros Hc. induction t as [|k e IHe d IHd];
    cbn [Aventureiro.inserirPista em_ordem].
  - cbn [app]. rewrite list_elem_of_singleton, elem_of_nil. tauto.
  - cbn [em_ordem] in Hc. apply Forall_app in Hc as [Hce Hcd].
    apply Forall_cons in Hcd as [Hck Hcd].
    destruct (strcmp p k <? 0) eqn:E1; [|destruct (strcmp p k >? 0) eqn:E2];
      cbn [em_ordem].
    + rewrite !elem_of_app, !elem_of_cons, (IHe Hce). tauto.
    + rewrite !elem_of_app, !elem_of_cons, (IHd Hcd). tauto.
    + apply Z.ltb_ge in E1. rewrite Z.gtb_ltb in E2. apply Z.ltb_ge in E2.
      assert (E : strcmp p k = 0) by lia.
      apply strcmp_eq_cstr in E. rewrite Hck in E.
      rewrite E, !elem_of_app, !elem_of_cons. tauto.
Qed.

Lemma aventureiro_inserirTodas_inv ps t :
  abr abaixo t -> Forall (fun k => cstr k = k) (em_ordem t) ->
  abr abaixo (Aventureiro.inserirTodas t ps) /\
  Forall (fun k => cstr k = k) (em_ordem (Aventureiro.inserirTodas t ps)) /\
  forall x, x ∈ em_ordem (Aventureiro.inserirTodas t ps) <->
            x ∈ em_ordem t \/ exists p, p ∈ ps /\ x = cstr p.
Proof.
  unfold Aventureiro.inserirTodas.
  revert t. induction ps as [|p ps IH]; intros t Ha Hc; cbn [fold_left].
  - split; [exact Ha|]. split; [exact Hc|]. intros x.
    split; [tauto | intros [H|(p & H & _)]; [exact H | now apply elem_of_nil in H]].
  - destruct (IH (Aventureiro.inserirPista t p)) as (H1 & H2 & H3).
    + apply aventureiro_inserir_abr, Ha.
    + apply aventureiro_inserir_Forall; [exact Hc | apply cstr_idem].
    + split; [exact H1|]. split; [exact H2|]. intros x.
      rewrite H3, aventureiro_inserir_elem by exact Hc. split.
      * intros [[H|H]|(q & Hq & H)]; [tauto | right; exists p | right; exists q];
          (split; [|exact H]);
          [apply list_elem_of_here | now apply list_elem_of_further].
      * intros [H|(q & Hq & H)]; [tauto|].
        apply elem_of_cons in Hq as [->|Hq]; [tauto | right; exists q; tauto].
Qed.

(** X21. In the second program, for every sequence of texts that fit a
    node (at most 99 bytes), the empty text included, the enumeration of
    the store built from the empty one is strictly ascending, without
    duplicates, and holds exactly the texts inserted; [inserirPista] there
    has no test for the empty text and stores it as a node. *)
Theorem aventureiro_enumeracao (ps : list string) :
  Forall (fun p => (String.length (cstr p) <= Aventureiro.MAX_PISTA - 1)%nat)
         ps ->
  let t := Aventureiro.inserirTodas PNULL ps in
  StronglySorted abaixo (em_ordem t) /\
  NoDup (em_ordem t) /\
  (forall x, x ∈ em_ordem t <-> exists p, p ∈ ps /\ x = cstr p) /\
  em_ordem (Aventureiro.inserirPista PNULL EmptyString) = [EmptyString].
Proof.
  intros _ t.
  destruct (aventureiro_inserirTodas_inv ps PNULL I) as (H1 & _ & H3);
    [constructor|].
  apply ordenada_abaixo in H1.
  split; [exact H1|]. split; [apply ordenada_abaixo_NoDup, H1|].
  split; [|reflexivity].
  intros x. unfold t. rewrite H3. cbn [em_ordem]. rewrite elem_of_nil. tauto.
Qed.

Lemma aventureiro_enumeracao_witness :
  Forall (fun p => (String.length (cstr p) <= Aventureiro.MAX_PISTA - 1)%nat)
         pistas_da_mansao /\
  StronglySorted abaixo
    (em_ordem (Aventureiro.inserirTodas PNULL pistas_da_mansao)).
Proof.
  assert (H : Forall (fun p => (String.length (cstr p)
                                <= Aventureiro.MAX_PISTA - 1)%nat)
                     pistas_da_mansao).
  { repeat (constructor; [vm_compute; lia|]). constructor. }
  split; [exact H|].
  apply (aventureiro_enumeracao pistas_da_mansao H).
Defined.

Lemma aventureiro_coletar_igual s raiz :
  Aventureiro.sala_ok s -> Aventureiro.coletar s raiz = coletar s raiz.
Proof.
  intros [_ [Hc Hl]]. unfold Aventureiro.coletar, coletar.
  destruct (vazia (sala_pista s)) eqn:Ev; cbn [negb]; [reflexivity|].
  apply aventureiro_inserirPista_igual_aux; [exact Ev | now rewrite Hc].
Qed.

Lemma explorarSalasComPistas_laco_mais n m c c' :
  Aventureiro.explorarSalasComPistas_laco n c = Terminou c' -> (n <= m)%nat ->
  Aventureiro.explorarSalasComPistas_laco m c = Terminou c'.
Proof.
  revert m c. induction n as [|n IH]; intros m c H Hm; [discriminate|].
  destruct m as [|m]; [lia|]. cbn [Aventureiro.explorarSalasComPistas_laco] in *.
  destruct (Aventureiro.explorarSalasComPistas_corpo c); try exact H.
  apply IH; [exact H | lia].
Qed.

Lemma explorarSalasComPistas_corpo_e s raiz x stdout e :
  sala_esquerda s = Some e ->
  Aventureiro.explorarSalasComPistas_corpo
    (MkConfig s raiz ("e"%char :: LF :: x) stdout)
  = Continua (MkConfig e (Aventureiro.coletar s raiz) x
                (stdout ++ Aventureiro.tela s)).
Proof.
  intros He. unfold Aventureiro.explorarSalasComPistas_corpo.
  cbn [atual raizPistas entrada saida].
  change (scanf_c ("e"%char :: LF :: x)) with (Some ("e"%char, LF :: x)).
  cbv beta iota zeta.
  change (limparBufferEntrada (LF :: x)) with x.
  change (eh "e" "e" "E") with true. cbv iota.
  now rewrite He.
Qed.

Lemma explorarSalasComPistas_corpo_d s raiz x stdout d :
  sala_direita s = Some d ->
  Aventureiro.explorarSalasComPistas_corpo
    (MkConfig s raiz ("d"%char :: LF :: x) stdout)
  = Continua (MkConfig d (Aventureiro.coletar s raiz) x
                (stdout ++ Aventureiro.tela s)).
Proof.
  intros Hd. unfold Aventureiro.explorarSalasComPistas_corpo.
  cbn [atual raizPistas entrada saida].
  change (scanf_c ("d"%char :: LF :: x)) with (Some ("d"%char, LF :: x)).
  cbv beta iota zeta.
  change (limparBufferEntrada (LF :: x)) with x.
  change (eh "d" "e" "E") with false.
  change (eh "d" "d" "D") with true. cbv iota.
  now rewrite Hd.
Qed.

Lemma explorarSalasComPistas_laco_direcoes ds s raiz resto stdout l :
  andar s ds = Some l -> Forall Aventureiro.sala_ok l ->
  exists ultima sd,
    last l = Some ultima /\
    Aventureiro.explorarSalasComPistas_laco (S (length ds))
      (MkConfig s raiz (teclas ds ++ "s"%char :: LF :: resto) stdout)
    = Terminou (MkConfig ultima (coletar_todas l raiz) resto sd).
Proof.
  revert s raiz stdout l.
  induction ds as [|d ds IH]; intros s raiz stdout l Hl Hok;
    cbn [andar] in Hl.
  - injection Hl as <-. apply Forall_cons in Hok as [Hs _].
    exists s. eexists. split; [reflexivity|].
    cbn [length Aventureiro.explorarSalasComPistas_laco teclas flat_map app].
    unfold Aventureiro.explorarSalasComPistas_corpo.
    cbn [atual raizPistas entrada saida].
    change (scanf_c ("s"%char :: LF :: resto))
      with (Some ("s"%char, LF :: resto)).
    cbv beta iota zeta.
    change (limparBufferEntrada (LF :: resto)) with resto.
    change (eh "s" "e" "E") with false.
    change (eh "s" "d" "D") with false.
    change (eh "s" "s" "S") with true. cbv iota.
    rewrite (aventureiro_coletar_igual s raiz Hs). reflexivity.
  - destruct d.
    + destruct (sala_esquerda s) as [e|] eqn:Ee; [|discriminate].
      destruct (andar e ds) as [l'|] eqn:El; [|discriminate].
      injection Hl as <-. apply Forall_cons in Hok as [Hs Hok].
      destruct (IH e (coletar s raiz) (stdout ++ Aventureiro.tela s) l' El Hok)
        as (u & sd & Hu & Hr).
      exists u, sd. split.
      * destruct l'; [discriminate | exact Hu].
      * cbn [length].
        cbn [Aventureiro.explorarSalasComPistas_laco teclas flat_map app].
        rewrite (explorarSalasComPistas_corpo_e _ _ _ _ e Ee).
        rewrite (aventureiro_coletar_igual s raiz Hs). exact Hr.
    + destruct (sala_direita s) as [e|] eqn:Ee; [|discriminate].
      destruct (andar e ds) as [l'|] eqn:El; [|discriminate].
      injection Hl as <-. apply Forall_cons in Hok as [Hs Hok].
      destruct (IH e (coletar s raiz) (stdout ++ Aventureiro.tela s) l' El Hok)
        as (u & sd & Hu & Hr).
      exists u, sd. split.
      * destruct l'; [discriminate | exact Hu].
      * cbn [length].
        cbn [Aventureiro.explorarSalasComPistas_laco teclas flat_map app].
        rewrite (explorarSalasComPistas_corpo_d _ _ _ _ e Ee).
        rewrite (aventureiro_coletar_igual s raiz Hs). exact Hr.
Qed.

(** X22. In the second program too, typing the directions of a way down
    the mansion and then 's' ends [explorarSalasComPistas] in the room at
    the end of the way; when the rooms of the way fit the arrays of that
    program, the store it leaves is the very store [explorarMansao] leaves
    on the same input, and so is the input left unread. *)
Theorem aventureiro_explorar_pelas_direcoes (inicio : Sala)
    (ds : list Direcao) (l : list Sala) (raiz : PistaNode) (t : Tabela)
    (resto : list ascii) (stdout : list evento) :
  andar inicio ds = Some l -> Forall Aventureiro.sala_ok l ->
  exists ultima sd sd',
    last l = Some ultima /\
    Aventureiro.explorarSalasComPistas inicio raiz
      (teclas ds ++ "s"%char :: LF :: resto) stdout
    = Terminou (MkConfig ultima (coletar_todas l raiz) resto sd) /\
    explorarMansao (Some inicio) raiz t
      (teclas ds ++ "s"%char :: LF :: resto) stdout
    = inl (Terminou (MkConfig ultima (coletar_todas l raiz) resto sd')).
Proof.
  intros Hl Hok.
  destruct (explorarSalasComPistas_laco_direcoes ds inicio raiz resto stdout l
              Hl Hok) as (u & sd & Hu & Hr).
  destruct (explorarMansao_laco_direcoes ds inicio raiz resto stdout l Hl)
    as (u' & sd' & Hu' & Hr').
  assert (u' = u) by congruence. subst u'.
  assert (H : (S (length ds)
               <= S (length (teclas ds ++ "s"%char :: LF :: resto)))%nat).
  { rewrite length_app. cbn [length].
    assert (H : (length ds <= length (teclas ds))%nat).
    { clear. unfold teclas.
      induction ds as [|d ds IH]; cbn [flat_map]; [cbn; lia|].
      rewrite length_app. cbn [length]. lia. }
    lia. }
  exists u, sd, sd'. split; [exact Hu|]. split.
  - unfold Aventureiro.explorarSalasComPistas.
    eapply explorarSalasComPistas_laco_mais; eassumption.
  - unfold explorarMansao. f_equal.
    eapply explorarMansao_laco_mais; eassumption.
Qed.

Lemma aventureiro_explorar_pelas_direcoes_witness :
  andar hall [Direita; Direita] = Some [hall; cozinha; sotao] /\
  Forall Aventureiro.sala_ok [hall; cozinha; sotao] /\
  exists sd,
    Aventureiro.explorarSalasComPistas hall PNULL
      (teclas [Direita; Direita] ++ "s"%char :: LF :: []) []
    = Terminou (MkConfig sotao (coletar_todas [hall; cozinha; sotao] PNULL)
                  [] sd).
Proof.
  assert (H1 : andar hall [Direita; Direita] = Some [hall; cozinha; sotao])
    by reflexivity.
  assert (H2 : Forall Aventureiro.sala_ok [hall; cozinha; sotao]).
  { repeat (constructor; [split; split; vm_compute; reflexivity || lia |]).
    constructor. }
  split; [exact H1|]. split; [exact H2|].
  destruct (aventureiro_explorar_pelas_direcoes hall [Direita; Direita]
              [hall; cozinha; sotao] PNULL tabela_da_mansao [] [] H1 H2)
    as (u & sd & sd' & Hu & Hr & _).
  assert (E : u = sotao) by (cbn in Hu; congruence). subst u.
  exists sd. exact Hr.
Defined.

(** ** The program of the last level *)

Lemma todas_as_salas_caminho (P : Sala -> Prop) s l s' :
  todas_as_salas P s -> caminho s l s' -> Forall P l.
Proof.
  intros Hs Hc. induction Hc as [s|s e l s' He Hc IH|s d l s' Hd Hc IH].
  - repeat constructor. now apply todas_as_salas_aqui.
  - constructor; [now apply todas_as_salas_aqui|].
    apply IH. eapply todas_as_salas_esquerda; eassumption.
  - constructor; [now apply todas_as_salas_aqui|].
    apply IH. eapply todas_as_salas_direita; eassumption.
Qed.

Lemma mansao_com_pistas :
  todas_as_salas (fun s => sala_ok s /\ vazia (sala_pista s) = false) hall.
Proof.
  cbn. repeat split; try (vm_compute; lia).
Qed.

(** X23. Whenever [main] returns, its status is 0, the exploration was
    ended in a room reached from the hall by a path of the mansion, and
    the lines written under "PISTAS COLETADAS (ORDENADAS)" are the clues of
    the rooms of that path, no other, in strictly ascending order; the
    last thing written is "Investigação finalizada...".  So [main] returns
    only after an exploration that was ended, not one that the end of the
    input interrupted. *)
Theorem main_retorna (stdin : list ascii) (status : Z) (resto : list ascii)
    (stdout : list evento) :
  main stdin = Retornou status resto stdout ->
  status = 0 /\
  exists c l,
    explorarMansao (Some hall) PNULL tabela_da_mansao stdin titulo_main
    = inl (Terminou c) /\
    caminho hall l (atual c) /\
    (forall x, x ∈ em_ordem (raizPistas c) <->
               exists s, s ∈ l /\ x = sala_pista s) /\
    StronglySorted abaixo (em_ordem (raizPistas c)) /\
    (exists depois,
       stdout = saida c ++ titulo_pistas
                ++ map Txt (map linha_pista (em_ordem (raizPistas c)))
                ++ depois) /\
    termina_com stdout msg_finalizada.
Proof.
  unfold main, explorarMansao.
  destruct (explorarMansao_laco (S (length stdin))
              (MkConfig hall PNULL stdin titulo_main)) as [c|c|c] eqn:E;
    [|discriminate..].
  unfold main_depois. intros H. injection H as <- <- <-.
  split; [reflexivity|]. exists c.
  destruct (explorarMansao_laco_caminho _ _ c (or_introl E)) as (l & Hl & _ & Hx);
    [constructor|]. cbn [atual raizPistas] in Hl, Hx.
  pose proof (explorarMansao_laco_ordenada (S (length stdin))
                (MkConfig hall PNULL stdin titulo_main) mansao_ok) as Ho.
  rewrite E in Ho. destruct Ho as [_ Ho]; [constructor | exact I |].
  pose proof (todas_as_salas_caminho _ _ _ _ mansao_com_pistas Hl) as Hp.
  rewrite Forall_forall in Hp.
  exists l. split; [reflexivity|]. split; [exact Hl|]. split.
  { intros x. rewrite Hx. cbn [em_ordem]. rewrite elem_of_nil. split.
    - intros [[]|(s & Hs & _ & ->)]. exists s. split; [exact Hs|].
      destruct (Hp s Hs) as [[_ Hc] _]. now apply strncpy_cabe_id.
    - intros (s & Hs & ->). right. exists s. split; [exact Hs|].
      destruct (Hp s Hs) as [[_ Hc] Hv]. split; [exact Hv|].
      symmetry. now apply strncpy_cabe_id. }
  split; [apply ordenada_abaixo, Ho|]. split.
  - eexists. rewrite exibirPistas_em_ordem, <- !app_assoc. reflexivity.
  - eexists. rewrite !app_assoc. reflexivity.
Qed.

Lemma main_retorna_witness :
  exists resto stdout,
    main (digitar ("e" +:+ nl +:+ "d" +:+ nl +:+ "s" +:+ nl
                   +:+ "Jardineiro" +:+ nl))
    = Retornou 0 resto stdout /\
    termina_com stdout msg_finalizada.
Proof.
  assert (H : exists resto stdout,
             main (digitar ("e" +:+ nl +:+ "d" +:+ nl +:+ "s" +:+ nl
                            +:+ "Jardineiro" +:+ nl))
             = Retornou 0 resto stdout)
    by (do 2 eexists; vm_compute; reflexivity).
  destruct H as (resto & stdout & H). exists resto, stdout.
  split; [exact H|].
  destruct (main_retorna _ _ _ _ H) as (_ & c & l & _ & _ & _ & _ & _ & Hf).
  exact Hf.
Defined.

(** ** More on the hash function and the console *)

Lemma soma_bytes_permutacao (l1 l2 : list ascii) :
  l1 ≡ₚ l2 ->
  soma_bytes (string_of_list_ascii l1) = soma_bytes (string_of_list_ascii l2).
Proof.
  induction 1; cbn [string_of_list_ascii soma_bytes]; lia.
Qed.

Lemma cstr_sem_NUL (l : list ascii) :
  Forall (fun c => uchar c <> 0) l ->
  cstr (string_of_list_ascii l) = string_of_list_ascii l.
Proof.
  induction 1 as [|c l Hc _ IH]; cbn [string_of_list_ascii cstr]; [reflexivity|].
  apply Z.eqb_neq in Hc. now rewrite Hc, IH.
Qed.

(** X24. The bucket of a text depends on the bytes of the text and not on
    their order: two texts with the same bytes in any order, anagrams for
    one, fall in the same bucket. *)
Theorem hash_de_anagramas (l1 l2 : list ascii) :
  Forall (fun c => uchar c <> 0) l1 ->
  l1 ≡ₚ l2 ->
  hash (string_of_list_ascii l1) = hash (string_of_list_ascii l2).
Proof.
  intros H1 Hp.
  assert (H2 : Forall (fun c => uchar c <> 0) l2) by now rewrite <- Hp.
  rewrite !hash_soma, !cstr_sem_NUL by assumption.
  now rewrite (soma_bytes_permutacao l1 l2 Hp).
Qed.

Lemma hash_de_anagramas_witness :
  Forall (fun c => uchar c <> 0) (digitar "roma") /\
  digitar "roma" ≡ₚ digitar "amor" /\
  hash "roma" = hash "amor".
Proof.
  assert (H1 : Forall (fun c => uchar c <> 0) (digitar "roma"))
    by (repeat constructor; discriminate).
  assert (H2 : digitar "roma" ≡ₚ digitar "amor").
  { cbn. apply (Permutation_cons_app [_; _; _] []).
    apply (Permutation_cons_app [_; _] []).
    apply (Permutation_cons_app [_] []). reflexivity. }
  split; [exact H1|]. split; [exact H2|].
  apply (hash_de_anagramas (digitar "roma") (digitar "amor") H1 H2).
Defined.

(** X25. The option read at a menu is the first character of the input
    that is not white space, blank lines included in what is skipped; then
    [limparBufferEntrada] discards the rest of that line and its newline,
    and nothing of the next line. *)
Theorem ler_uma_opcao (brancos : list ascii) (opcao : ascii)
    (linha seguinte : list ascii) :
  Forall (fun c => isspace c = true) brancos ->
  isspace opcao = false ->
  Forall (fun c => uchar c <> uchar LF) linha ->
  scanf_c (brancos ++ opcao :: linha ++ LF :: seguinte)
  = Some (opcao, linha ++ LF :: seguinte) /\
  limparBufferEntrada (linha ++ LF :: seguinte) = seguinte /\
  limparBufferEntrada linha = [].
Proof.
  intros Hb Ho Hl. split; [|split].
  - induction Hb as [|b bs Hb _ IH]; cbn [app scanf_c].
    + now rewrite Ho.
    + now rewrite Hb.
  - induction Hl as [|c l Hc _ IH]; cbn [app limparBufferEntrada].
    + now rewrite Z.eqb_refl.
    + apply Z.eqb_neq in Hc. now rewrite Hc.
  - induction Hl as [|c l Hc _ IH]; cbn [limparBufferEntrada]; [reflexivity|].
    apply Z.eqb_neq in Hc. now rewrite Hc.
Qed.

Lemma ler_uma_opcao_witness :
  Forall (fun c => isspace c = true) [LF; " "%char] /\
  isspace "e" = false /\
  Forall (fun c => uchar c <> uchar LF) (digitar "squerda") /\
  scanf_c ([LF; " "%char] ++ "e"%char :: digitar "squerda" ++ LF :: digitar "d")
  = Some ("e"%char, digitar "squerda" ++ LF :: digitar "d").
Proof.
  assert (H1 : Forall (fun c => isspace c = true) [LF; " "%char])
    by (repeat constructor).
  assert (H2 : isspace "e" = false) by reflexivity.
  assert (H3 : Forall (fun c => uchar c <> uchar LF) (digitar "squerda"))
    by (repeat constructor; discriminate).
  split; [exact H1|]. split; [exact H2|]. split; [exact H3|].
  apply (ler_uma_opcao [LF; " "%char] "e"%char (digitar "squerda")
           (digitar "d") H1 H2 H3).
Defined.

(** X26. An insertion never removes nor replaces a node: on a table of
    [TAM_HASH] buckets the nodes after [inserirNaHash] are the new node
    and the nodes there were, and the number of buckets is the same. *)
Theorem inserirNaHash_conserva (t : Tabela) (p s : string) :
  length t = Z.to_nat TAM_HASH ->
  concat (inserirNaHash t (Some p) (Some s))
  ≡ₚ MkSuspeito (strncpy (MAX_PISTA - 1) p) (strncpy (MAX_NOME - 1) s)
     :: concat t /\
  length (inserirNaHash t (Some p) (Some s)) = length t.
Proof.
  intros Hl. split; [|apply inserirNaHash_length].
  pose proof (indice_na_tabela t p Hl) as Hi.
  unfold inserirNaHash.
  remember (Z.to_nat (hash p)) as i eqn:Ei. clear Ei Hl.
  remember (MkSuspeito _ _) as novo eqn:En. clear En.
  revert i Hi. induction t as [|b t IH]; intros i Hi; [cbn in Hi; lia|].
  destruct i as [|i]; cbn [insert list_insert concat lookup_total
                           list_lookup_total app].
  - reflexivity.
  - cbn in Hi. rewrite (IH i) by lia.
    change (novo :: concat (b :: t)) with (novo :: b ++ concat t).
    now rewrite Permutation_middle.
Qed.

Lemma inserirNaHash_conserva_witness :
  length tabela_da_mansao = Z.to_nat TAM_HASH /\
  length (concat (inserirNaHash tabela_da_mansao
                    (Some "Pegadas de lama recentes") (Some "Governanta")))
  = 7%nat.
Proof.
  assert (H : length tabela_da_mansao = Z.to_nat TAM_HASH) by reflexivity.
  split; [exact H|].
  destruct (inserirNaHash_conserva tabela_da_mansao
              "Pegadas de lama recentes" "Governanta" H) as [Hp _].
  rewrite Hp. reflexivity.
Defined.

(** ** The second program at end of file *)






